(** * CoDiPack: the Jacobian tape with reuse index management

    A shallow embedding of [include/codi/tapes/jacobianReuseTape.hpp] and of
    the gradient access contract of
    [include/codi/tapes/interfaces/gradientAccessTapeInterface.hpp].

    Conventions of the embedding.
    - The data streams of a tape are lists; a raw pointer into a stream is the
      list itself, an element access [ptr[i]] is the lookup [ptr !! i].  An
      access outside the array is undefined behaviour in C++: every function
      that indexes a raw pointer returns an [option], and [None] stands for
      the undefined run.
    - [size_t] cursors and argument counts are [nat].  A decrement of a
      cursor that is already zero is an undefined run as well.  Identifiers
      are the handles the index manager issues, from 0 upwards, and are
      [nat] too.
    - The arithmetic of the tape ([Real] for Jacobian entries, [Gradient] for
      adjoints and tangents) is a parameter, as it is a template parameter of
      the tape ([T_TapeTypes]).
    - Storage management ([reserveItems], chunk boundaries, [beginUse] /
      [endUse] of the adjoint vector) and event notification have no effect
      on the recorded data or on the adjoints and are left out. *)

From Stdlib Require Import ZArith Lia.
From stdpp Require Import base option list numbers strings.


(** ** Template parameters and configuration *)

(** [TapeTypes::Real] and [TapeTypes::Gradient] with the three operations the
    tape uses on them: [Gradient()], [+=] on gradients and [Real * Gradient]. *)
Class TapeTypes (Real Gradient : Type) := {
  Gradient_zero : Gradient;
  Gradient_add : Gradient → Gradient → Gradient;
  Jacobian_mul : Real → Gradient → Gradient;
}.

Abbreviation Identifier := nat.
Abbreviation ArgumentSize := nat.
Abbreviation LowLevelFunctionToken := nat.

(** [config.h] is not among the sources: the reserved argument count that
    marks a low level function statement is a parameter. *)
Class Config := {
  StatementLowLevelFunctionTag : ArgumentSize;
}.

(** Modelled from the spec: the callback table of the low level (external)
    functions lives in the absent base tape.  The spec (section 3) gives each
    token a callback triple (forward-apply, reverse-apply, size-query), says
    that the size of the fixed bytes is computable from the token alone and
    that the size of the dynamic bytes requires a query call.  The query is
    given the fixed bytes of the block; the two apply callbacks are given
    both byte ranges and act on the adjoint (tangent) vector. *)
Class LowLevelFunctionTable (Gradient : Type) := {
  llfFixedSize : LowLevelFunctionToken → nat;
  llfDynamicSize : LowLevelFunctionToken → list Byte.byte → nat;
  llfForward : LowLevelFunctionToken → list Byte.byte → list Byte.byte →
               list Gradient → list Gradient;
  llfReverse : LowLevelFunctionToken → list Byte.byte → list Byte.byte →
               list Gradient → list Gradient;
}.

(** ** Data model *)

(** A position: one offset per data stream, nested as in the tape
    (dynamic bytes, fixed bytes, tokens, Jacobian entries, statements). *)
Record Position := mkPosition {
  posDynamicData : nat;
  posFixedData : nat;
  posLLFTokenData : nat;
  posJacobian : nat;
  posStmt : nat;
}.

(** The tape: the co-indexed statement stream (target identifier, argument
    count), the co-indexed Jacobian stream (partial, argument identifier),
    the token stream, the two byte streams, and the adjoint vector. *)
Record Tape (Real Gradient : Type) := mkTape {
  statementData : list (Identifier * ArgumentSize);
  jacobianData : list (Real * Identifier);
  lowLevelFunctionData : list LowLevelFunctionToken;
  fixedSizeData : list Byte.byte;
  dynamicSizeData : list Byte.byte;
  adjoints : list Gradient;
}.
Arguments mkTape {Real Gradient} _ _ _ _ _ _.
Arguments statementData {Real Gradient} _.
Arguments jacobianData {Real Gradient} _.
Arguments lowLevelFunctionData {Real Gradient} _.
Arguments fixedSizeData {Real Gradient} _.
Arguments dynamicSizeData {Real Gradient} _.
Arguments adjoints {Real Gradient} _.

(** The raw pointers a data stream evaluation hands to its handler. *)
Record DataPointers (Real : Type) := mkPointers {
  dynamicDataPtr : list Byte.byte;
  fixedDataPtr : list Byte.byte;
  tokenPtr : list LowLevelFunctionToken;
  rhsJacobians : list Real;
  rhsIdentifiers : list Identifier;
  lhsIdentifiers : list Identifier;
  numberOfJacobians : list ArgumentSize;
}.
Arguments mkPointers {Real} _ _ _ _ _ _ _.
Arguments dynamicDataPtr {Real} _.
Arguments fixedDataPtr {Real} _.
Arguments tokenPtr {Real} _.
Arguments rhsJacobians {Real} _.
Arguments rhsIdentifiers {Real} _.
Arguments lhsIdentifiers {Real} _.
Arguments numberOfJacobians {Real} _.

(** [ByteDataView::read<char>(n)] at position [pos], forward direction:
    the [n] bytes that start at [pos]. *)
Definition readBytes (data : list Byte.byte) (pos n : nat) : option (list Byte.byte) :=
  if decide (pos + n ≤ length data) then Some (take n (drop pos data)) else None.

(** [ByteDataView::write(src, n)] at position [pos] of the viewed stream:
    [n] bytes of [src] replace the bytes that start at [pos]. *)
Definition writeBytes (data : list Byte.byte) (pos : nat) (src : list Byte.byte) (n : nat)
  : option (list Byte.byte) :=
  if decide (pos + n ≤ length data ∧ n ≤ length src)
  then Some (take pos data ++ take n src ++ drop (pos + n) data)
  else None.

Section JacobianReuseTape.
Context {Real Gradient : Type}.
Context `{!TapeTypes Real Gradient, !Config, !LowLevelFunctionTable Gradient}.

Local Abbreviation Tape := (Tape Real Gradient).
Local Abbreviation DataPointers := (DataPointers Real).

Definition pointers (t : Tape) : DataPointers :=
  mkPointers (dynamicSizeData t) (fixedSizeData t) (lowLevelFunctionData t)
             (jacobianData t).*1 (jacobianData t).*2
             (statementData t).*1 (statementData t).*2.

(** Modelled from the spec: [getPosition] and [getZeroPosition] are declared
    in the absent base tape; a position is the tuple of the offsets of the
    streams, [getPosition] snapshots their current ends and
    [getZeroPosition] is the start of the recording. *)
Definition getPosition (t : Tape) : Position :=
  mkPosition (length (dynamicSizeData t)) (length (fixedSizeData t))
             (length (lowLevelFunctionData t)) (length (jacobianData t))
             (length (statementData t)).

(** Modelled from the spec: [getZeroPosition] is the start of the
    recording, where every stream is at offset 0. *)
Definition getZeroPosition (t : Tape) : Position := mkPosition 0 0 0 0 0.

(** Modelled from the spec: [resetTo] is declared in the absent base tape;
    it truncates the tape back to the given position.  The spec says nothing
    about the adjoint vector here; the theorems on editing are about the
    streams only. *)
Definition resetTo (t : Tape) (pos : Position) : Tape :=
  mkTape (take (posStmt pos) (statementData t))
         (take (posJacobian pos) (jacobianData t))
         (take (posLLFTokenData pos) (lowLevelFunctionData t))
         (take (posFixedData pos) (fixedSizeData t))
         (take (posDynamicData pos) (dynamicSizeData t))
         (adjoints t).

(** Modelled from the spec: [reset] is declared in the absent base tape; it
    takes the tape back to the start of the recording. *)
Definition reset (t : Tape) : Tape := resetTo t (getZeroPosition t).

(** [JacobianReuseTape::pushStmtData]: both arguments are pushed. *)
Definition pushStmtData (index : Identifier) (numberOfArguments : ArgumentSize)
           (t : Tape) : Tape :=
  mkTape (statementData t ++ [(index, numberOfArguments)])
         (jacobianData t) (lowLevelFunctionData t)
         (fixedSizeData t) (dynamicSizeData t) (adjoints t).

(** [jacobianData.pushData(jacobian, identifier)]. *)
Definition pushJacobianData (jac : Real) (id : Identifier) (t : Tape) : Tape :=
  mkTape (statementData t) (jacobianData t ++ [(jac, id)])
         (lowLevelFunctionData t)
         (fixedSizeData t) (dynamicSizeData t) (adjoints t).

(** Modelled from the spec: [pushLowLevelFunction] is declared in the absent
    base tape.  It pushes a statement with the sentinel argument count, then
    the token, then reserves the byte ranges in the two byte streams and
    returns write views on them (here: their start offsets).  The target
    identifier stored with the sentinel is the reserved identifier 0. *)
Definition pushLowLevelFunction (token : LowLevelFunctionToken)
           (fixedSize dynamicSize : nat) (t : Tape) : Tape * nat * nat :=
  let t1 := pushStmtData 0 StatementLowLevelFunctionTag t in
  (mkTape (statementData t1) (jacobianData t1)
          (lowLevelFunctionData t1 ++ [token])
          (fixedSizeData t1 ++ replicate fixedSize Byte.x00)
          (dynamicSizeData t1 ++ replicate dynamicSize Byte.x00)
          (adjoints t1),
   length (fixedSizeData t), length (dynamicSizeData t)).

(** ** Helpers of the base tape used by the replay loops *)

(** Modelled from the spec: [incrementTangents] is declared in the absent
    base tape.  Forward equation of one statement: the weighted sum of the
    argument tangents, [lhs += partial_i * tangent[argId_i]], consuming
    [numberOfArguments] Jacobian entries upwards from [curPos]. *)
Fixpoint incrementTangents (adjointVector : list Gradient) (lhsAdjoint : Gradient)
         (numberOfArguments : nat) (curPos : nat)
         (rhsJac : list Real) (rhsIds : list Identifier)
  : option (Gradient * nat) :=
  match numberOfArguments with
  | O => Some (lhsAdjoint, curPos)
  | S n =>
      jac ← rhsJac !! curPos;
      id ← rhsIds !! curPos;
      argAdj ← adjointVector !! id;
      incrementTangents adjointVector (Gradient_add lhsAdjoint (Jacobian_mul jac argAdj))
                        n (curPos + 1) rhsJac rhsIds
  end.

(** Modelled from the spec: [incrementAdjoints] is declared in the absent
    base tape.  Reverse equation of one statement:
    [adjoint[argId_i] += partial_i * lhsAdjoint] for each argument,
    consuming [numberOfArguments] Jacobian entries downwards from
    [curPos]. *)
Fixpoint incrementAdjoints (adjointVector : list Gradient) (lhsAdjoint : Gradient)
         (numberOfArguments : nat) (curPos : nat)
         (rhsJac : list Real) (rhsIds : list Identifier)
  : option (list Gradient * nat) :=
  match numberOfArguments with
  | O => Some (adjointVector, curPos)
  | S n =>
      match curPos with
      | O => None
      | S curPos' =>
          jac ← rhsJac !! curPos';
          id ← rhsIds !! curPos';
          argAdj ← adjointVector !! id;
          incrementAdjoints (<[id := Gradient_add argAdj (Jacobian_mul jac lhsAdjoint)]> adjointVector)
                            lhsAdjoint n curPos' rhsJac rhsIds
      end
  end.

(** The state a handler threads through its loop: the cursors it received
    by reference. *)
Local Abbreviation Cursors := Position.

Definition setStmtPos (c : Cursors) (n : nat) : Cursors :=
  mkPosition (posDynamicData c) (posFixedData c) (posLLFTokenData c) (posJacobian c) n.

Definition setJacobianPos (c : Cursors) (n : nat) : Cursors :=
  mkPosition (posDynamicData c) (posFixedData c) (posLLFTokenData c) n (posStmt c).

Definition setLLFPos (c : Cursors) (dyn fixed token : nat) : Cursors :=
  mkPosition dyn fixed token (posJacobian c) (posStmt c).

(** Modelled from the spec: [callLowLevelFunction] is declared in the absent
    base tape.  Count call mode, forward direction: reads the token, queries
    the sizes of the block that starts at the cursors and advances the
    cursors behind the block.  Nothing else is touched. *)
Definition callLowLevelFunction_Count (p : DataPointers)
           (curDynamicDataPos curFixedDataPos curLLFTokenDataPos : nat)
  : option (nat * nat * (nat * nat * nat)) :=
  token ← tokenPtr p !! curLLFTokenDataPos;
  let fixedSize := llfFixedSize token in
  fixedBytes ← readBytes (fixedDataPtr p) curFixedDataPos fixedSize;
  let dynamicSize := llfDynamicSize token fixedBytes in
  _ ← readBytes (dynamicDataPtr p) curDynamicDataPos dynamicSize;
  Some (fixedSize, dynamicSize,
        (curDynamicDataPos + dynamicSize, curFixedDataPos + fixedSize,
         curLLFTokenDataPos + 1)).

(** Modelled from the spec: [callLowLevelFunction], forward call mode.  The
    forward callback of the token is applied to the block that starts at the
    cursors; the cursors advance behind it. *)
Definition callLowLevelFunction_Forward (p : DataPointers)
           (adjointVector : list Gradient) (c : Cursors)
  : option (list Gradient * Cursors) :=
  token ← tokenPtr p !! posLLFTokenData c;
  let fixedSize := llfFixedSize token in
  fixedBytes ← readBytes (fixedDataPtr p) (posFixedData c) fixedSize;
  let dynamicSize := llfDynamicSize token fixedBytes in
  dynamicBytes ← readBytes (dynamicDataPtr p) (posDynamicData c) dynamicSize;
  Some (llfForward token fixedBytes dynamicBytes adjointVector,
        setLLFPos c (posDynamicData c + dynamicSize) (posFixedData c + fixedSize)
                  (posLLFTokenData c + 1)).

(** Modelled from the spec: [callLowLevelFunction], reverse call mode.  The
    cursors sit behind the block; the reverse callback of the token is
    applied and the cursors retreat in front of the block. *)
Definition callLowLevelFunction_Reverse (p : DataPointers)
           (adjointVector : list Gradient) (c : Cursors)
  : option (list Gradient * Cursors) :=
  match posLLFTokenData c with
  | O => None
  | S tokenPos =>
      token ← tokenPtr p !! tokenPos;
      let fixedSize := llfFixedSize token in
      if decide (fixedSize ≤ posFixedData c) then
        fixedBytes ← readBytes (fixedDataPtr p) (posFixedData c - fixedSize) fixedSize;
        let dynamicSize := llfDynamicSize token fixedBytes in
        if decide (dynamicSize ≤ posDynamicData c) then
          dynamicBytes ← readBytes (dynamicDataPtr p) (posDynamicData c - dynamicSize) dynamicSize;
          Some (llfReverse token fixedBytes dynamicBytes adjointVector,
                setLLFPos c (posDynamicData c - dynamicSize) (posFixedData c - fixedSize)
                          tokenPos)
        else None
      else None
  end.


(** A [while] loop whose body runs [n] times; [None] is absorbing. *)
Fixpoint iterate {A : Type} (body : A → option A) (n : nat) (st : A) : option A :=
  match n with
  | O => Some st
  | S n' => body st ≫= iterate body n'
  end.

(** ** Replay: [internalEvaluateForward_EvalStatements] *)

(** One turn of the forward loop (the body of
    [while (curStmtPos < endStmtPos)]). *)
Definition evaluateForwardStep (p : DataPointers) (st : list Gradient * Cursors)
  : option (list Gradient * Cursors) :=
  let '(adjointVector, c) := st in
  argsSize ← numberOfJacobians p !! posStmt c;
  st' ← (if decide (StatementLowLevelFunctionTag = argsSize) then
           callLowLevelFunction_Forward p adjointVector c
         else
           '(lhsAdjoint, curJacobianPos) ←
             incrementTangents adjointVector Gradient_zero argsSize (posJacobian c)
                               (rhsJacobians p) (rhsIdentifiers p);
           lhsIdentifier ← lhsIdentifiers p !! posStmt c;
           if decide (lhsIdentifier < length adjointVector) then
             Some (<[lhsIdentifier := lhsAdjoint]> adjointVector,
                   setJacobianPos c curJacobianPos)
           else None);
  Some (st'.1, setStmtPos st'.2 (posStmt st'.2 + 1)).

Definition internalEvaluateForward_EvalStatements (p : DataPointers)
           (adjointVector : list Gradient) (cur : Cursors) (endStmtPos : nat)
  : option (list Gradient * Cursors) :=
  iterate (evaluateForwardStep p) (endStmtPos - posStmt cur) (adjointVector, cur).

(** ** Replay: [internalEvaluateReverse_EvalStatements] *)

(** One turn of the reverse loop (the body of
    [while (curStmtPos > endStmtPos)]): the statement cursor is decremented
    first. *)
Definition evaluateReverseStep (p : DataPointers) (st : list Gradient * Cursors)
  : option (list Gradient * Cursors) :=
  let '(adjointVector, c0) := st in
  match posStmt c0 with
  | O => None
  | S stmtPos =>
      let c := setStmtPos c0 stmtPos in
      argsSize ← numberOfJacobians p !! posStmt c;
      if decide (StatementLowLevelFunctionTag = argsSize) then
        callLowLevelFunction_Reverse p adjointVector c
      else
        lhsIdentifier ← lhsIdentifiers p !! posStmt c;
        lhsAdjoint ← adjointVector !! lhsIdentifier;
        let adjointVector' := <[lhsIdentifier := Gradient_zero]> adjointVector in
        '(adjointVector'', curJacobianPos) ←
          incrementAdjoints adjointVector' lhsAdjoint argsSize (posJacobian c)
                            (rhsJacobians p) (rhsIdentifiers p);
        Some (adjointVector'', setJacobianPos c curJacobianPos)
  end.

Definition internalEvaluateReverse_EvalStatements (p : DataPointers)
           (adjointVector : list Gradient) (cur : Cursors) (endStmtPos : nat)
  : option (list Gradient * Cursors) :=
  iterate (evaluateReverseStep p) (posStmt cur - endStmtPos) (adjointVector, cur).

(** Modelled from the spec: [evaluateForward] and [evaluateReverse] are
    declared in the absent base tape.  They walk the recorded streams between
    two positions: the handler is started with the cursors of [start] on the
    raw pointers of the streams and runs up (down) to the statement offset of
    [end]; the result is the adjoint (tangent) vector. *)
Definition evaluateForward (t : Tape) (start end_ : Position) (adjointVector : list Gradient)
  : option (list Gradient) :=
  fst <$> internalEvaluateForward_EvalStatements (pointers t) adjointVector start (posStmt end_).

(** Modelled from the spec: [evaluateReverse], as [evaluateForward], with
    [start] behind [end]. *)
Definition evaluateReverse (t : Tape) (start end_ : Position) (adjointVector : list Gradient)
  : option (list Gradient) :=
  fst <$> internalEvaluateReverse_EvalStatements (pointers t) adjointVector start (posStmt end_).

(** ** Editing: [internalAppend], [append], [erase] *)

(** The inner loop of the manual statement push:
    [while (curJacobianPos < curJacobianEnd)]. *)
Fixpoint pushJacobians (p : DataPointers) (n : nat) (curJacobianPos : nat) (dstTape : Tape)
  : option (Tape * nat) :=
  match n with
  | O => Some (dstTape, curJacobianPos)
  | S n' =>
      jac ← rhsJacobians p !! curJacobianPos;
      id ← rhsIdentifiers p !! curJacobianPos;
      pushJacobians p n' (curJacobianPos + 1) (pushJacobianData jac id dstTape)
  end.

(** One turn of the loop of [internalAppend]. *)
Definition internalAppendStep (p : DataPointers) (st : Tape * Cursors)
  : option (Tape * Cursors) :=
  let '(dstTape, c) := st in
  argsSize ← numberOfJacobians p !! posStmt c;
  st' ← (if decide (StatementLowLevelFunctionTag = argsSize) then
           token ← tokenPtr p !! posLLFTokenData c;
           '(fixedSize, dynamicSize, (tempCurDynamicDataPos, tempCurFixedDataPos, curLLFTokenDataPos)) ←
             callLowLevelFunction_Count p (posDynamicData c) (posFixedData c) (posLLFTokenData c);
           let '(dst1, dstFixedStore, dstDynamicStore) :=
             pushLowLevelFunction token fixedSize dynamicSize dstTape in
           fixedBytes ← readBytes (fixedDataPtr p) (posFixedData c) fixedSize;
           dstFixed ← writeBytes (fixedSizeData dst1) dstFixedStore fixedBytes fixedSize;
           dynamicBytes ← readBytes (dynamicDataPtr p) (posDynamicData c) dynamicSize;
           dstDynamic ← writeBytes (dynamicSizeData dst1) dstDynamicStore dynamicBytes dynamicSize;
           Some (mkTape (statementData dst1) (jacobianData dst1) (lowLevelFunctionData dst1)
                        dstFixed dstDynamic (adjoints dst1),
                 setLLFPos c tempCurDynamicDataPos tempCurFixedDataPos curLLFTokenDataPos)
         else
           lhsIdentifier ← lhsIdentifiers p !! posStmt c;
           let dst1 := pushStmtData lhsIdentifier argsSize dstTape in
           '(dst2, curJacobianPos) ← pushJacobians p argsSize (posJacobian c) dst1;
           Some (dst2, setJacobianPos c curJacobianPos));
  Some (st'.1, setStmtPos st'.2 (posStmt st'.2 + 1)).

Definition internalAppend (p : DataPointers) (dstTape : Tape) (cur : Cursors) (endStmtPos : nat)
  : option (Tape * Cursors) :=
  iterate (internalAppendStep p) (endStmtPos - posStmt cur) (dstTape, cur).

(** [append]: the forward evaluation of the source streams with
    [internalAppend] as its handler. *)
Definition append (dstTape srcTape : Tape) (start end_ : Position) : option Tape :=
  fst <$> internalAppend (pointers srcTape) dstTape start (posStmt end_).

(** [erase(start, end, emptyTape)]: the edited tape and the helper tape. *)
Definition eraseWith (t : Tape) (start end_ : Position) (emptyTape : Tape)
  : option (Tape * Tape) :=
  emptyTape1 ← append emptyTape t end_ (getPosition t);
  let t1 := resetTo t start in
  t2 ← append t1 emptyTape1 (getZeroPosition emptyTape1) (getPosition emptyTape1);
  Some (t2, reset emptyTape1).

(** Modelled from the spec: the constructor of the base tape is absent; a new
    tape has recorded nothing, and its adjoint vector holds the reserved slot
    of identifier 0. *)
Definition newTape : Tape := mkTape [] [] [] [] [] [Gradient_zero].

(** [erase(start, end)]: instantiates a temporary helper tape. *)
Definition erase (t : Tape) (start end_ : Position) : option Tape :=
  fst <$> eraseWith t start end_ newTape.

(** ** [clearAdjoints] *)

(** The lambda [clearFunc]; [adjointsSize] is the size it captured. *)
Definition clearFunc (adjointsSize : Identifier) (adjointVector : list Gradient)
           (index : Identifier) (stmtSize : ArgumentSize) : list Gradient :=
  if decide (index < adjointsSize) then <[index := Gradient_zero]> adjointVector
  else adjointVector.

(** Modelled from the spec: [forEachReverse] belongs to the absent data
    store; it is the bounded reverse traversal of the entries between two
    offsets of one stream, from [start] down to [end]. *)
Definition forEachReverse {A B : Type} (data : list A) (start end_ : nat)
           (f : B → A → B) (acc : B) : B :=
  foldl f acc (reverse (take (start - end_) (drop end_ data))).

(** [clearAdjoints(start, end, adjointsManagement)]; the adjoints management
    only decides whether the adjoint vector is bracketed by [beginUse] and
    [endUse], which do not change it. *)
Definition clearAdjoints (t : Tape) (start end_ : Position) : Tape :=
  let adjointsSize := length (adjoints t) in
  mkTape (statementData t) (jacobianData t) (lowLevelFunctionData t)
         (fixedSizeData t) (dynamicSizeData t)
         (forEachReverse (statementData t) (posStmt start) (posStmt end_)
                         (λ adj stmt, clearFunc adjointsSize adj stmt.1 stmt.2)
                         (adjoints t)).

End JacobianReuseTape.

(** ** Recordings

    What the recorder writes, one entry per recorded unit.  The replay and
    editing theorems are stated for tapes that hold a recording, and for
    positions taken while it was made. *)

Inductive Recorded (Real : Type) :=
| Statement (lhs : Identifier) (args : list (Real * Identifier))
| LowLevelFunction (token : LowLevelFunctionToken) (fixedBytes dynamicBytes : list Byte.byte).
Arguments Statement {Real} _ _.
Arguments LowLevelFunction {Real} _ _ _.

Section Recording.
Context {Real Gradient : Type}.
Context `{!TapeTypes Real Gradient, !Config, !LowLevelFunctionTable Gradient}.

Local Abbreviation Tape := (Tape Real Gradient).
Local Abbreviation Recorded := (Recorded Real).

(** Modelled from the spec: the recorder ([store], [pushLowLevelFunction]
    and the filling of its views) is in the absent base tape.  A statement
    is one statement entry (target identifier, argument count) and one
    Jacobian entry per argument; a low level function is one statement entry
    with the sentinel argument count, the token, and the two byte ranges,
    exactly filled. *)
Definition recordOne (t : Tape) (op : Recorded) : Tape :=
  match op with
  | Statement lhs args =>
      mkTape (statementData t ++ [(lhs, length args)]) (jacobianData t ++ args)
             (lowLevelFunctionData t) (fixedSizeData t) (dynamicSizeData t) (adjoints t)
  | LowLevelFunction token fixedBytes dynamicBytes =>
      mkTape (statementData t ++ [(0, StatementLowLevelFunctionTag)]) (jacobianData t)
             (lowLevelFunctionData t ++ [token])
             (fixedSizeData t ++ fixedBytes) (dynamicSizeData t ++ dynamicBytes) (adjoints t)
  end.

Definition record (t : Tape) (ops : list Recorded) : Tape := foldl recordOne t ops.

(** A tape that holds exactly the recording [ops]. *)
Definition recording (adjointVector : list Gradient) (ops : list Recorded) : Tape :=
  record (mkTape [] [] [] [] [] adjointVector) ops.

(** What the recorder guarantees of each unit: the argument count of a
    statement is not the sentinel, and the byte ranges of a low level
    function have the sizes its callbacks report. *)
Definition wellRecorded (op : Recorded) : Prop :=
  match op with
  | Statement lhs args => length args ≠ StatementLowLevelFunctionTag
  | LowLevelFunction token fixedBytes dynamicBytes =>
      length fixedBytes = llfFixedSize token ∧
      length dynamicBytes = llfDynamicSize token fixedBytes
  end.

(** *** The replay equations as the specification words them *)

(** Forward: the weighted sum of the argument tangents,
    [Σ partial_i * tangent[argId_i]], summed from the first argument on. *)
Fixpoint tangentSum (tangents : list Gradient) (acc : Gradient)
         (args : list (Real * Identifier)) : option Gradient :=
  match args with
  | [] => Some acc
  | (partial, argId) :: rest =>
      argTangent ← tangents !! argId;
      tangentSum tangents (Gradient_add acc (Jacobian_mul partial argTangent)) rest
  end.

(** Forward, one unit: a statement overwrites the tangent slot of its target
    with the weighted sum; a low level function applies its forward
    callback. *)
Definition forwardUnit (tangents : list Gradient) (op : Recorded) : option (list Gradient) :=
  match op with
  | Statement lhs args =>
      targetTangent ← tangentSum tangents Gradient_zero args;
      if decide (lhs < length tangents) then Some (<[lhs := targetTangent]> tangents) else None
  | LowLevelFunction token fixedBytes dynamicBytes =>
      Some (llfForward token fixedBytes dynamicBytes tangents)
  end.

(** Reverse: [adjoint[argId_i] += partial_i * targetAdjoint], one argument
    after the other in the order of the list. *)
Fixpoint distribute (adjointVector : list Gradient) (targetAdjoint : Gradient)
         (args : list (Real * Identifier)) : option (list Gradient) :=
  match args with
  | [] => Some adjointVector
  | (partial, argId) :: rest =>
      argAdjoint ← adjointVector !! argId;
      distribute (<[argId := Gradient_add argAdjoint (Jacobian_mul partial targetAdjoint)]> adjointVector)
                 targetAdjoint rest
  end.

(** Reverse, one unit: a statement reads the adjoint of its target, zeroes
    that slot, then distributes the value read to the arguments (the last
    recorded argument first); a low level function applies its reverse
    callback. *)
Definition reverseUnit (adjointVector : list Gradient) (op : Recorded) : option (list Gradient) :=
  match op with
  | Statement lhs args =>
      targetAdjoint ← adjointVector !! lhs;
      distribute (<[lhs := Gradient_zero]> adjointVector) targetAdjoint (reverse args)
  | LowLevelFunction token fixedBytes dynamicBytes =>
      Some (llfReverse token fixedBytes dynamicBytes adjointVector)
  end.

(** A sequence of units, one after the other in the order of the list. *)
Definition replay (unit : list Gradient → Recorded → option (list Gradient))
           (ops : list Recorded) (v : list Gradient) : option (list Gradient) :=
  foldl (λ acc op, acc ≫= λ v', unit v' op) (Some v) ops.

(** Forward replay of a recorded range: increasing recording order. *)
Definition replayForward (ops : list Recorded) (tangents : list Gradient) :=
  replay forwardUnit ops tangents.

(** Reverse replay of a recorded range: decreasing recording order. *)
Definition replayReverse (ops : list Recorded) (adjointVector : list Gradient) :=
  replay reverseUnit (reverse ops) adjointVector.

End Recording.

(** ** Gradient access ([GradientAccessTapeInterface])

    Only the declarations and their documented contract are among the
    sources; the implementation is in the absent base tape. *)

(** Policies for bounds checking. *)
Inductive BoundsChecking :=
| BoundsChecking_False  (* Do not perform any bounds checking. *)
| BoundsChecking_True.  (* Perform bounds checking. It may involve side effects. *)

Section GradientAccess.
Context {Real Gradient : Type}.
Context `{!TapeTypes Real Gradient}.

Local Abbreviation Tape := (Tape Real Gradient).

Definition withAdjoints (t : Tape) (adjointVector : list Gradient) : Tape :=
  mkTape (statementData t) (jacobianData t) (lowLevelFunctionData t)
         (fixedSizeData t) (dynamicSizeData t) adjointVector.

(** Modelled from the spec: the implicit resize of a write access; the
    adjoint vector is grown with default gradients until the identifier has
    a slot. *)
Definition resizeAdjointsFor (identifier : Identifier) (adjointVector : list Gradient)
  : list Gradient :=
  adjointVector ++ replicate (identifier + 1 - length adjointVector) Gradient_zero.

(** Modelled from the spec: reference access to the gradient.  With bounds
    checking, an adjoint vector that is not large enough for the identifier
    is implicitly resized.  The reference is the slot of the (possibly
    resized) adjoint vector. *)
Definition gradient (identifier : Identifier) (boundsChecking : BoundsChecking) (t : Tape)
  : option (Tape * nat) :=
  match boundsChecking with
  | BoundsChecking_True =>
      if decide (length (adjoints t) ≤ identifier)
      then Some (withAdjoints t (resizeAdjointsFor identifier (adjoints t)), identifier)
      else Some (t, identifier)
  | BoundsChecking_False =>
      if decide (identifier < length (adjoints t)) then Some (t, identifier) else None
  end.

(** Modelled from the spec: constant reference access to the gradient.  With
    bounds checking, if no adjoint variable with the given identifier
    exists, the reference is to [adjoints[0]]. *)
Definition gradient_const (identifier : Identifier) (boundsChecking : BoundsChecking) (t : Tape)
  : option nat :=
  match boundsChecking with
  | BoundsChecking_True =>
      if decide (length (adjoints t) ≤ identifier)
      then (if decide (0 < length (adjoints t)) then Some 0 else None)
      else Some identifier
  | BoundsChecking_False =>
      if decide (identifier < length (adjoints t)) then Some identifier else None
  end.

(** Modelled from the spec: [setGradient] writes through the mutable
    reference. *)
Definition setGradient (identifier : Identifier) (g : Gradient)
           (boundsChecking : BoundsChecking) (t : Tape) : option Tape :=
  '(t', slot) ← gradient identifier boundsChecking t;
  Some (withAdjoints t' (<[slot := g]> (adjoints t'))).

(** Modelled from the spec: [getGradient] reads through the constant
    reference. *)
Definition getGradient (identifier : Identifier) (boundsChecking : BoundsChecking) (t : Tape)
  : option Gradient :=
  slot ← gradient_const identifier boundsChecking t;
  adjoints t !! slot.

End GradientAccess.

(** ** The static requirement on the index manager *)

(** The compile time constants of an index manager the tape looks at. *)
Record IndexManager := mkIndexManager {
  IsLinear : bool;
}.

(** The outcome of instantiating a class template. *)
Inductive Instantiation (A : Type) :=
| CompileError (message : string)
| Instantiated (a : A).
Arguments CompileError {A} _.
Arguments Instantiated {A} _.

(** [CODI_STATIC_ASSERT(!IndexManager::IsLinear, ...)] in the class body:
    the instantiation of [JacobianReuseTape] over its tape types, and what
    its constructor then builds. *)
Definition JacobianReuseTape {Real Gradient : Type} `{!TapeTypes Real Gradient}
           (indexManager : IndexManager) : Instantiation (Tape Real Gradient) :=
  if IsLinear indexManager
  then CompileError "This class requires an index manager with a reuse scheme."
  else Instantiated newTape.

(** ** A concrete instance: integer arithmetic *)

Definition TapeTypes_Z : TapeTypes Z Z :=
  {| Gradient_zero := 0%Z; Gradient_add := Z.add; Jacobian_mul := Z.mul |}.

Definition Config_255 : Config := {| StatementLowLevelFunctionTag := 255 |}.

(** A callback table for examples: every block has one fixed byte, which
    holds the number of its dynamic bytes; the forward callback overwrites
    slot 1 with the token, the reverse callback overwrites slot 2. *)
Definition LowLevelFunctionTable_example : LowLevelFunctionTable Z :=
  {| llfFixedSize := λ _, 1;
     llfDynamicSize := λ _ fixedBytes,
       match fixedBytes with b :: _ => Byte.to_nat b | [] => 0 end;
     llfForward := λ token _ _ v, <[1 := Z.of_nat token]> v;
     llfReverse := λ token _ _ v, <[2 := Z.of_nat token]> v |}.

(** The recording of the concrete scenario: [t1 = x * y], then [z = t1 + x],
    with the primal values [x] and [y]; the four identifiers are
    parameters. *)
Definition scenario (x y : Z) (idX idY idT1 idZ : Identifier) : list (Recorded Z) :=
  [Statement idT1 [(y, idX); (x, idY)];
   Statement idZ [(1%Z, idT1); (1%Z, idX)]].

(** ** How a recording lies in the streams *)

Section Layout.
Context {Real Gradient : Type}.
Context `{!TapeTypes Real Gradient, !Config, !LowLevelFunctionTable Gradient}.

Local Abbreviation Recorded := (Recorded Real).
Local Abbreviation DataPointers := (DataPointers Real).

(** The statement entry of a unit. *)
Definition statementOf (op : Recorded) : Identifier * ArgumentSize :=
  match op with
  | Statement lhs args => (lhs, length args)
  | LowLevelFunction _ _ _ => (0, StatementLowLevelFunctionTag)
  end.

Definition jacobiansOf (op : Recorded) : list (Real * Identifier) :=
  match op with Statement _ args => args | LowLevelFunction _ _ _ => [] end.

Definition tokensOf (op : Recorded) : list LowLevelFunctionToken :=
  match op with Statement _ _ => [] | LowLevelFunction token _ _ => [token] end.

Definition fixedBytesOf (op : Recorded) : list Byte.byte :=
  match op with Statement _ _ => [] | LowLevelFunction _ fixedBytes _ => fixedBytes end.

Definition dynamicBytesOf (op : Recorded) : list Byte.byte :=
  match op with Statement _ _ => [] | LowLevelFunction _ _ dynamicBytes => dynamicBytes end.

(** The cursors behind a unit that starts at the cursors [c]. *)
Definition advance (c : Position) (op : Recorded) : Position :=
  mkPosition (posDynamicData c + length (dynamicBytesOf op))
             (posFixedData c + length (fixedBytesOf op))
             (posLLFTokenData c + length (tokensOf op))
             (posJacobian c + length (jacobiansOf op))
             (posStmt c + 1).

(** The Jacobian entries [args] are what the two columns of the Jacobian
    stream hold from the offset [pos] on. *)
Definition jacobiansAt (rhsJac : list Real) (rhsIds : list Identifier) (pos : nat)
           (args : list (Real * Identifier)) : Prop :=
  ∀ i jac id, args !! i = Some (jac, id) →
    rhsJac !! (pos + i) = Some jac ∧ rhsIds !! (pos + i) = Some id.

(** The unit [op] is what the streams hold at the cursors [c]. *)
Definition unitAt (p : DataPointers) (c : Position) (op : Recorded) : Prop :=
  numberOfJacobians p !! posStmt c = Some (statementOf op).2 ∧
  match op with
  | Statement lhs args =>
      lhsIdentifiers p !! posStmt c = Some lhs ∧
      jacobiansAt (rhsJacobians p) (rhsIdentifiers p) (posJacobian c) args
  | LowLevelFunction token fixedBytes dynamicBytes =>
      tokenPtr p !! posLLFTokenData c = Some token ∧
      readBytes (fixedDataPtr p) (posFixedData c) (length fixedBytes) = Some fixedBytes ∧
      readBytes (dynamicDataPtr p) (posDynamicData c) (length dynamicBytes) = Some dynamicBytes
  end.

End Layout.

(** The scenario on the identifiers 1 to 4, and the adjoint vector that is
    zero except for [adjoint(z) = 1]. *)
Definition scenarioOps : list (Recorded Z) := scenario 2 3 1 2 3 4.
Definition scenarioSeed : list Z := [0; 0; 0; 0; 1]%Z.

(** A recording in three parts, with a low level function in the middle
    part. *)
Definition examplePrefix : list (Recorded Z) :=
  [Statement 3 [(3%Z, 1); (2%Z, 2)]].
Definition exampleRange : list (Recorded Z) :=
  [LowLevelFunction 9 [Byte.x02] [Byte.x07; Byte.x08];
   Statement 4 [(1%Z, 3); (1%Z, 1)]].
Definition exampleSuffix : list (Recorded Z) :=
  [Statement 5 [(5%Z, 4)]; LowLevelFunction 6 [Byte.x00] []].

Section ExampleData.
#[local] Existing Instance TapeTypes_Z.
#[local] Existing Instance Config_255.
#[local] Existing Instance LowLevelFunctionTable_example.

(** The position taken after [ops] were recorded on a new tape. *)
Definition positionAfter (ops : list (Recorded Z)) : Position :=
  getPosition (recording (Gradient:=Z) [] ops).

Definition scenarioTape : Tape Z Z := recording [] scenarioOps.

Definition exampleTape : Tape Z Z :=
  recording [] (examplePrefix ++ exampleRange ++ exampleSuffix).

End ExampleData.

(** ** Further notions for the replay loops *)

Section ReplayNotions.
Context {Real Gradient : Type}.
Context `{!LowLevelFunctionTable Gradient}.

(** Every identifier of the unit, target and arguments, is below [n]. *)
Definition identifiersBelow (n : nat) (op : Recorded Real) : Prop :=
  match op with
  | Statement lhs args => lhs < n ∧ Forall (λ arg, arg.2 < n) args
  | LowLevelFunction _ _ _ => True
  end.

(** The callbacks of the low level functions hand back a vector of the size
    they were given. *)
Definition callbacksKeepSize : Prop :=
  ∀ token fixedBytes dynamicBytes (v : list Gradient),
    length (llfForward token fixedBytes dynamicBytes v) = length v ∧
    length (llfReverse token fixedBytes dynamicBytes v) = length v.

End ReplayNotions.

(** The pairing of an adjoint vector with a tangent vector,
    [Σ adjoint_i * tangent_i]. *)
Fixpoint dot (x y : list Z) : Z :=
  match x, y with
  | a :: x', b :: y' => a * b + dot x' y'
  | _, _ => 0
  end%Z.

(** On vectors of size [n], the reverse callback of a low level function is
    the transpose of its forward callback. *)
Definition transposedCallbacks `{!LowLevelFunctionTable Z} (n : nat) (op : Recorded Z) : Prop :=
  match op with
  | Statement _ _ => True
  | LowLevelFunction token fixedBytes dynamicBytes =>
      ∀ x y, length x = n → length y = n →
        dot y (llfForward token fixedBytes dynamicBytes x) =
        dot (llfReverse token fixedBytes dynamicBytes y) x
  end.

(** A callback table for examples whose callbacks are linear: every block
    has one fixed byte, which holds the number of its dynamic bytes; both
    callbacks scale the vector by the token. *)
Definition LowLevelFunctionTable_scaling : LowLevelFunctionTable Z :=
  {| llfFixedSize := λ _, 1;
     llfDynamicSize := λ _ fixedBytes,
       match fixedBytes with b :: _ => Byte.to_nat b | [] => 0 end;
     llfForward := λ token _ _ v, Z.mul (Z.of_nat token) <$> v;
     llfReverse := λ token _ _ v, Z.mul (Z.of_nat token) <$> v |}.

(** [Σ partial_i * x[argId_i]] over the arguments of a statement. *)
Definition weightedSum (x : list Z) (args : list (Z * Identifier)) : Z :=
  foldr (λ arg acc, arg.1 * (x !!! arg.2) + acc)%Z 0%Z args.

(** ** The lvalue of an expression ([LhsExpressionInterface])

    An lvalue holds its primal value and its identifier; the tape it
    belongs to is the global tape of its type ([getGlobalTape()]), which is
    passed in and handed back here. *)

Record LhsExpression (Real : Type) := mkLhsExpression {
  value : Real;
  getIdentifier : Identifier;
}.
Arguments mkLhsExpression {Real} _ _.
Arguments value {Real} _.
Arguments getIdentifier {Real} _.

Section LhsExpressionInterface.
Context {Real Gradient : Type}.
Context `{!TapeTypes Real Gradient}.

Local Abbreviation Tape := (Tape Real Gradient).

(** [Gradient& gradient()]: the mutable reference of the global tape for the
    identifier of the lvalue, with the default bounds checking. *)
Definition LhsExpression_gradient (x : LhsExpression Real) (globalTape : Tape)
  : option (Tape * nat) :=
  gradient (getIdentifier x) BoundsChecking_True globalTape.

(** [Gradient const& gradient() const]: the constant reference of the global
    tape for the identifier of the lvalue. *)
Definition LhsExpression_gradient_const (x : LhsExpression Real) (globalTape : Tape)
  : option nat :=
  gradient_const (getIdentifier x) BoundsChecking_True globalTape.

(** [Gradient getGradient() const]: a copy of what the constant reference
    refers to. *)
Definition LhsExpression_getGradient (x : LhsExpression Real) (globalTape : Tape)
  : option Gradient :=
  slot ← LhsExpression_gradient_const x globalTape;
  adjoints globalTape !! slot.

(** [void setGradient(Gradient const& g)]: assigns through the mutable
    reference. *)
Definition LhsExpression_setGradient (x : LhsExpression Real) (g : Gradient)
           (globalTape : Tape) : option Tape :=
  '(globalTape', slot) ← LhsExpression_gradient x globalTape;
  Some (withAdjoints globalTape' (<[slot := g]> (adjoints globalTape'))).

(** [Real const& getValue() const] and [void setValue(Real const& v)]. *)
Definition LhsExpression_getValue (x : LhsExpression Real) : Real := value x.

Definition LhsExpression_setValue (x : LhsExpression Real) (v : Real) : LhsExpression Real :=
  mkLhsExpression v (getIdentifier x).

End LhsExpressionInterface.

(** ** Expressions ([BinaryExpression], [ConstructStaticContextLogic])

    The template argument of an expression template is modelled by a value
    of [ExpressionType]; the object of that type is a value of
    [Expression]. *)

(** The operations an expression node is instantiated with:
    [Operation<Real>::primal] of a binary and of a unary operation, and
    [ConversionOperator::fromDataStore] of a constant.  They are template
    parameters of the nodes. *)
Class ExpressionOperations (Real PassiveReal BinaryOperation UnaryOperation : Type) := {
  binaryPrimal : BinaryOperation → Real → Real → Real;
  unaryPrimal : UnaryOperation → Real → Real;
  fromDataStore : PassiveReal → Real;
}.

(** The type of an expression: an lvalue, a constant, a binary node or a
    unary node. *)
Inductive ExpressionType (BinaryOperation UnaryOperation : Type) :=
| LhsExpressionType
| ConstantExpressionType
| BinaryExpressionType (operation : BinaryOperation)
                       (ArgA ArgB : ExpressionType BinaryOperation UnaryOperation)
| UnaryExpressionType (operation : UnaryOperation)
                      (Arg : ExpressionType BinaryOperation UnaryOperation).
Arguments LhsExpressionType {BinaryOperation UnaryOperation}.
Arguments ConstantExpressionType {BinaryOperation UnaryOperation}.
Arguments BinaryExpressionType {BinaryOperation UnaryOperation} _ _ _.
Arguments UnaryExpressionType {BinaryOperation UnaryOperation} _ _.

(** An expression object.  [StaticContextActiveType(primal, identifier)] and
    [ConstantExpression(value)] are the leaves; a [BinaryExpression] stores
    its two arguments and its result; [UnaryExpression] is not among the
    sources and stores, as the binary node does, its argument and its
    result. *)
Inductive Expression (Real BinaryOperation UnaryOperation : Type) :=
| StaticContextActiveType (primal : Real) (identifier : Identifier)
| ConstantExpression (constant : Real)
| BinaryExpression (operation : BinaryOperation)
                   (argA argB : Expression Real BinaryOperation UnaryOperation)
                   (result : Real)
| UnaryExpression (operation : UnaryOperation)
                  (arg : Expression Real BinaryOperation UnaryOperation)
                  (result : Real).
Arguments StaticContextActiveType {Real BinaryOperation UnaryOperation} _ _.
Arguments ConstantExpression {Real BinaryOperation UnaryOperation} _.
Arguments BinaryExpression {Real BinaryOperation UnaryOperation} _ _ _ _.
Arguments UnaryExpression {Real BinaryOperation UnaryOperation} _ _ _.

Section Expressions.
Context {Real PassiveReal BinaryOperation UnaryOperation : Type}.
Context `{!ExpressionOperations Real PassiveReal BinaryOperation UnaryOperation}.

Local Abbreviation ExpressionType := (ExpressionType BinaryOperation UnaryOperation).
Local Abbreviation Expression := (Expression Real BinaryOperation UnaryOperation).

(** [getValue()]: the primal of a leaf, the stored result of a node. *)
Definition Expression_getValue (e : Expression) : Real :=
  match e with
  | StaticContextActiveType primal _ => primal
  | ConstantExpression constant => constant
  | BinaryExpression _ _ _ result => result
  | UnaryExpression _ _ result => result
  end.

(** The constructor of [BinaryExpression]: stores the arguments and
    [Operation<Real>::primal(argA.getValue(), argB.getValue())]. *)
Definition newBinaryExpression (operation : BinaryOperation) (argA argB : Expression)
  : Expression :=
  BinaryExpression operation argA argB
    (binaryPrimal operation (Expression_getValue argA) (Expression_getValue argB)).

(** The constructor of [UnaryExpression], as the one of the binary node. *)
Definition newUnaryExpression (operation : UnaryOperation) (arg : Expression) : Expression :=
  UnaryExpression operation arg (unaryPrimal operation (Expression_getValue arg)).

(** [forEachLink]: a binary node hands its first argument and itself to the
    logic with link number 0, then its second argument and itself with link
    number 1; an lvalue is an end point and has no links.  The unary node
    and the constant are not among the sources: one link, and none. *)
Definition forEachLink {S : Type} (link : nat → Expression → Expression → S → S)
           (e : Expression) (s : S) : S :=
  match e with
  | StaticContextActiveType _ _ => s
  | ConstantExpression _ => s
  | BinaryExpression _ argA argB _ => link 1 argB e (link 0 argA e s)
  | UnaryExpression _ arg _ => link 0 arg e s
  end.

(** [ExpressionTraits::NumberOfActiveTypeArguments] and
    [ExpressionTraits::NumberOfConstantTypeArguments] are not among the
    sources; they count the lvalues and the constants of an expression
    type. *)
Fixpoint NumberOfActiveTypeArguments (Rhs : ExpressionType) : nat :=
  match Rhs with
  | LhsExpressionType => 1
  | ConstantExpressionType => 0
  | BinaryExpressionType _ ArgA ArgB =>
      NumberOfActiveTypeArguments ArgA + NumberOfActiveTypeArguments ArgB
  | UnaryExpressionType _ Arg => NumberOfActiveTypeArguments Arg
  end.

Fixpoint NumberOfConstantTypeArguments (Rhs : ExpressionType) : nat :=
  match Rhs with
  | LhsExpressionType => 0
  | ConstantExpressionType => 1
  | BinaryExpressionType _ ArgA ArgB =>
      NumberOfConstantTypeArguments ArgA + NumberOfConstantTypeArguments ArgB
  | UnaryExpressionType _ Arg => NumberOfConstantTypeArguments Arg
  end.

(** [ConstructStaticContextLogic<Rhs, Tape, primalValueOffset,
    constantValueOffset>::construct]: one case per specialization. *)
Fixpoint construct (Rhs : ExpressionType) (primalValueOffset constantValueOffset : nat)
         (primalVector : list Real) (identifiers : list Identifier)
         (constantData : list PassiveReal) : option Expression :=
  match Rhs with
  | LhsExpressionType =>
      identifier ← identifiers !! primalValueOffset;
      primal ← primalVector !! identifier;
      Some (StaticContextActiveType primal identifier)
  | ConstantExpressionType =>
      datum ← constantData !! constantValueOffset;
      Some (ConstantExpression (fromDataStore datum))
  | BinaryExpressionType operation ArgA ArgB =>
      let primalValueOffsetArgB := primalValueOffset + NumberOfActiveTypeArguments ArgA in
      let constantValueOffsetArgB := constantValueOffset + NumberOfConstantTypeArguments ArgA in
      argA ← construct ArgA primalValueOffset constantValueOffset
                       primalVector identifiers constantData;
      argB ← construct ArgB primalValueOffsetArgB constantValueOffsetArgB
                       primalVector identifiers constantData;
      Some (newBinaryExpression operation argA argB)
  | UnaryExpressionType operation Arg =>
      arg ← construct Arg primalValueOffset constantValueOffset
                      primalVector identifiers constantData;
      Some (newUnaryExpression operation arg)
  end.

(** *** What an expression object holds *)

(** The type of an expression object. *)
Fixpoint typeOf (e : Expression) : ExpressionType :=
  match e with
  | StaticContextActiveType _ _ => LhsExpressionType
  | ConstantExpression _ => ConstantExpressionType
  | BinaryExpression operation argA argB _ =>
      BinaryExpressionType operation (typeOf argA) (typeOf argB)
  | UnaryExpression operation arg _ => UnaryExpressionType operation (typeOf arg)
  end.

(** The lvalues of an expression, primal and identifier, in the order in
    which [forEachLink] reaches them. *)
Fixpoint activeLeaves (e : Expression) : list (Real * Identifier) :=
  match e with
  | StaticContextActiveType primal identifier => [(primal, identifier)]
  | ConstantExpression _ => []
  | BinaryExpression _ argA argB _ => activeLeaves argA ++ activeLeaves argB
  | UnaryExpression _ arg _ => activeLeaves arg
  end.

(** The constants of an expression, in the same order. *)
Fixpoint constantLeaves (e : Expression) : list Real :=
  match e with
  | StaticContextActiveType _ _ => []
  | ConstantExpression constant => [constant]
  | BinaryExpression _ argA argB _ => constantLeaves argA ++ constantLeaves argB
  | UnaryExpression _ arg _ => constantLeaves arg
  end.

(** Every node stores the result of its operation on the values of its
    arguments, as the constructors compute it. *)
Fixpoint resultsComputed (e : Expression) : Prop :=
  match e with
  | StaticContextActiveType _ _ => True
  | ConstantExpression _ => True
  | BinaryExpression operation argA argB result =>
      resultsComputed argA ∧ resultsComputed argB ∧
      result = binaryPrimal operation (Expression_getValue argA) (Expression_getValue argB)
  | UnaryExpression operation arg result =>
      resultsComputed arg ∧ result = unaryPrimal operation (Expression_getValue arg)
  end.

End Expressions.

(** Operations for examples: integers, [+] and [*], negation. *)
Inductive ExampleBinaryOperation := OperationAdd | OperationMultiply.
Inductive ExampleUnaryOperation := OperationNegate.

Definition ExpressionOperations_Z
  : ExpressionOperations Z Z ExampleBinaryOperation ExampleUnaryOperation :=
  {| binaryPrimal := λ operation a b,
       match operation with OperationAdd => (a + b)%Z | OperationMultiply => (a * b)%Z end;
     unaryPrimal := λ _ a, (- a)%Z;
     fromDataStore := λ datum, datum |}.

(** The expression [x + 3 * y] on the identifiers 4 and 2, with the primal
    values 10 and 7. *)
Definition exampleExpression : Expression Z ExampleBinaryOperation ExampleUnaryOperation :=
  BinaryExpression OperationAdd (StaticContextActiveType 10%Z 4)
    (BinaryExpression OperationMultiply (ConstantExpression 3%Z)
                      (StaticContextActiveType 7%Z 2) 21%Z)
    31%Z.

Definition examplePrimalVector : list Z := [0; 0; 7; 0; 10]%Z.

(** ** The counts of a tape *)

Section Counts.
Context {Real Gradient : Type}.
Context `{!Config}.

(** The number of Jacobian entries the statement entries announce: the
    argument count of every entry that is not a low level function. *)
Definition announcedJacobians (stmts : list (Identifier * ArgumentSize)) : nat :=
  foldr (λ stmt acc,
           (if decide (StatementLowLevelFunctionTag = stmt.2) then 0 else stmt.2) + acc)
        0 stmts.

(** The number of tokens the statement entries announce: one for every
    entry that is a low level function. *)
Definition announcedTokens (stmts : list (Identifier * ArgumentSize)) : nat :=
  foldr (λ stmt acc,
           (if decide (StatementLowLevelFunctionTag = stmt.2) then 1 else 0) + acc)
        0 stmts.

(** The Jacobian stream and the token stream hold as many entries as the
    statement stream announces. *)
Definition countsAgree (t : Tape Real Gradient) : Prop :=
  length (jacobianData t) = announcedJacobians (statementData t) ∧
  length (lowLevelFunctionData t) = announcedTokens (statementData t).

(** [dst'] holds what [dst] held and, behind it, [n] new statement entries
    with as many new Jacobian entries and tokens as these announce; the
    adjoints are those of [dst]. *)
Definition extends (dst dst' : Tape Real Gradient) (n : nat) : Prop :=
  ∃ stmts jacobians tokens fixedBytes dynamicBytes,
    dst' = mkTape (statementData dst ++ stmts) (jacobianData dst ++ jacobians)
                  (lowLevelFunctionData dst ++ tokens)
                  (fixedSizeData dst ++ fixedBytes) (dynamicSizeData dst ++ dynamicBytes)
                  (adjoints dst) ∧
    length stmts = n ∧
    length jacobians = announcedJacobians stmts ∧
    length tokens = announcedTokens stmts.

End Counts.

(** * Properties *)

(** ** Loops *)

Lemma iterate_S {A : Type} (body : A → option A) (n : nat) (st : A) :
  iterate body (S n) st = body st ≫= iterate body n.
Proof. done. Qed.

Lemma foldM_None {A Op : Type} (unit : A → Op → option A) (ops : list Op) :
  foldl (λ acc op, acc ≫= λ a, unit a op) None ops = None.
Proof. induction ops as [|op ops IH]; simpl; done. Qed.

Lemma foldM_cons {A Op : Type} (unit : A → Op → option A) (op : Op) (ops : list Op) (a : A) :
  foldl (λ acc op, acc ≫= λ a, unit a op) (Some a) (op :: ops) =
  unit a op ≫= λ a', foldl (λ acc op, acc ≫= λ a, unit a op) (Some a') ops.
Proof. simpl. destruct (unit a op); simpl; [done|apply foldM_None]. Qed.

Lemma foldM_app {A Op : Type} (unit : A → Op → option A) (ops1 ops2 : list Op) (a : A) :
  foldl (λ acc op, acc ≫= λ a, unit a op) (Some a) (ops1 ++ ops2) =
  foldl (λ acc op, acc ≫= λ a, unit a op) (Some a) ops1 ≫=
    λ a1, foldl (λ acc op, acc ≫= λ a, unit a op) (Some a1) ops2.
Proof.
  rewrite foldl_app.
  destruct (foldl _ (Some a) ops1) as [a1|]; simpl; [done|apply foldM_None].
Qed.

Section Properties.
Context {Real Gradient : Type}.
Context `{!TapeTypes Real Gradient, !Config, !LowLevelFunctionTable Gradient}.

Local Abbreviation Tape := (Tape Real Gradient).
Local Abbreviation Recorded := (Recorded Real).
Local Abbreviation DataPointers := (DataPointers Real).

Implicit Types (t dst : Tape) (op : Recorded) (ops : list Recorded)
         (c : Position) (p : DataPointers) (v : list Gradient)
         (args : list (Real * Identifier)).

(** ** The streams of a recording *)

Lemma record_streams t ops :
  record t ops =
  mkTape (statementData t ++ (statementOf <$> ops))
         (jacobianData t ++ (ops ≫= jacobiansOf))
         (lowLevelFunctionData t ++ (ops ≫= tokensOf))
         (fixedSizeData t ++ (ops ≫= fixedBytesOf))
         (dynamicSizeData t ++ (ops ≫= dynamicBytesOf))
         (adjoints t).
Proof.
  revert t. induction ops as [|op ops IH]; intros t; simpl.
  - rewrite !app_nil_r. by destruct t.
  - unfold record in *. simpl. rewrite IH.
    destruct op; simpl; rewrite <- ?app_assoc, ?app_nil_r; done.
Qed.

Lemma record_app t ops1 ops2 : record t (ops1 ++ ops2) = record (record t ops1) ops2.
Proof. unfold record. apply foldl_app. Qed.

Lemma getPosition_recording v ops :
  getPosition (recording v ops) =
  mkPosition (length (ops ≫= dynamicBytesOf)) (length (ops ≫= fixedBytesOf))
             (length (ops ≫= tokensOf)) (length (ops ≫= jacobiansOf)) (length ops).
Proof.
  unfold recording, getPosition. rewrite record_streams. simpl.
  by rewrite length_fmap.
Qed.

Lemma getPosition_recording_snoc v ops op :
  getPosition (recording v (ops ++ [op])) = advance (getPosition (recording v ops)) op.
Proof.
  rewrite !getPosition_recording. unfold advance. simpl.
  rewrite !bind_app, !length_app. simpl.
  rewrite !app_nil_r. done.
Qed.

Lemma pointers_recording v ops :
  pointers (recording v ops) =
  mkPointers (ops ≫= dynamicBytesOf) (ops ≫= fixedBytesOf) (ops ≫= tokensOf)
             (ops ≫= jacobiansOf).*1 (ops ≫= jacobiansOf).*2
             (statementOf <$> ops).*1 (statementOf <$> ops).*2.
Proof. unfold recording, pointers. by rewrite record_streams. Qed.

Lemma readBytes_middle (l1 l2 l3 : list Byte.byte) :
  readBytes (l1 ++ l2 ++ l3) (length l1) (length l2) = Some l2.
Proof.
  unfold readBytes. rewrite decide_True by (rewrite !length_app; lia).
  by rewrite drop_app_length, take_app_length.
Qed.

(** The units of a recording lie at the positions taken in front of them. *)
Lemma unitAt_recording v ops1 op ops3 :
  unitAt (pointers (recording v (ops1 ++ op :: ops3))) (getPosition (recording v ops1)) op.
Proof.
  rewrite pointers_recording, getPosition_recording.
  unfold unitAt. simpl.
  rewrite !bind_app, !fmap_app. simpl.
  split.
  { apply list_lookup_middle. by rewrite !length_fmap. }
  destruct op as [lhs args|token fixedBytes dynamicBytes]; simpl.
  - split.
    { apply list_lookup_middle. by rewrite !length_fmap. }
    intros i jac id Hi. simpl.
    assert (i < length args) by (by eapply lookup_lt_Some).
    rewrite !fmap_app.
    split.
    + rewrite lookup_app_r by (rewrite !length_fmap; lia).
      rewrite length_fmap, Nat.add_sub_swap, Nat.sub_diag by lia. simpl.
      rewrite lookup_app_l by (by rewrite length_fmap).
      by rewrite list_lookup_fmap, Hi.
    + rewrite lookup_app_r by (rewrite !length_fmap; lia).
      rewrite length_fmap, Nat.add_sub_swap, Nat.sub_diag by lia. simpl.
      rewrite lookup_app_l by (by rewrite length_fmap).
      by rewrite list_lookup_fmap, Hi.
  - split; [|split].
    + by apply list_lookup_middle.
    + apply readBytes_middle.
    + apply readBytes_middle.
Qed.

(** ** One unit of a recording under the three handlers *)

Lemma advance_Statement c lhs args :
  advance c (Statement lhs args) =
  mkPosition (posDynamicData c) (posFixedData c) (posLLFTokenData c)
             (posJacobian c + length args) (posStmt c + 1).
Proof. unfold advance. simpl. by rewrite !Nat.add_0_r. Qed.

Lemma advance_LowLevelFunction c token fixedBytes dynamicBytes :
  advance c (LowLevelFunction token fixedBytes dynamicBytes : Recorded) =
  mkPosition (posDynamicData c + length dynamicBytes) (posFixedData c + length fixedBytes)
             (posLLFTokenData c + 1) (posJacobian c) (posStmt c + 1).
Proof. unfold advance. simpl. by rewrite !Nat.add_0_r. Qed.

Lemma jacobiansAt_cons rhsJac rhsIds pos jac id args :
  jacobiansAt rhsJac rhsIds pos ((jac, id) :: args) →
  rhsJac !! pos = Some jac ∧ rhsIds !! pos = Some id ∧
  jacobiansAt rhsJac rhsIds (pos + 1) args.
Proof.
  intros Hat. destruct (Hat 0 jac id eq_refl) as [Hj Hi].
  rewrite Nat.add_0_r in Hj, Hi. split; [done|]. split; [done|].
  intros i jac' id' Hlook.
  replace (pos + 1 + i) with (pos + S i) by lia. by apply Hat.
Qed.

Lemma jacobiansAt_snoc rhsJac rhsIds pos jac id args :
  jacobiansAt rhsJac rhsIds pos (args ++ [(jac, id)]) →
  rhsJac !! (pos + length args) = Some jac ∧ rhsIds !! (pos + length args) = Some id ∧
  jacobiansAt rhsJac rhsIds pos args.
Proof.
  intros Hat.
  destruct (Hat (length args) jac id) as [Hj Hi]; [by apply list_lookup_middle|].
  split; [done|]. split; [done|].
  intros i jac' id' Hlook. apply Hat.
  rewrite lookup_app_l; [done|]. by eapply lookup_lt_Some.
Qed.

Lemma incrementTangents_unit v acc pos rhsJac rhsIds args :
  jacobiansAt rhsJac rhsIds pos args →
  incrementTangents v acc (length args) pos rhsJac rhsIds =
  (λ g, (g, pos + length args)) <$> tangentSum v acc args.
Proof.
  revert acc pos. induction args as [|[jac id] args IH]; intros acc pos Hat; simpl.
  - by rewrite Nat.add_0_r.
  - apply jacobiansAt_cons in Hat as (Hj & Hi & Hat).
    rewrite Hj. simpl. rewrite Hi. simpl.
    destruct (v !! id) as [argTangent|]; simpl; [|done].
    rewrite (IH _ _ Hat). by replace (pos + 1 + length args) with (pos + S (length args)) by lia.
Qed.

Lemma incrementAdjoints_unit v a pos rhsJac rhsIds args :
  jacobiansAt rhsJac rhsIds pos args →
  incrementAdjoints v a (length args) (pos + length args) rhsJac rhsIds =
  (λ v', (v', pos)) <$> distribute v a (reverse args).
Proof.
  revert v. induction args as [|[jac id] args IH] using rev_ind; intros v Hat; simpl.
  - by rewrite Nat.add_0_r.
  - apply jacobiansAt_snoc in Hat as (Hj & Hi & Hat).
    rewrite reverse_snoc, length_app. simpl.
    replace (length args + 1) with (S (length args)) by lia.
    replace (pos + S (length args)) with (S (pos + length args)) by lia.
    simpl. rewrite Hj, Hi. simpl.
    destruct (v !! id) as [argAdjoint|]; simpl; [|done].
    by apply IH.
Qed.

Lemma evaluateForwardStep_unit p c op v :
  unitAt p c op → wellRecorded op →
  evaluateForwardStep p (v, c) = (λ v', (v', advance c op)) <$> forwardUnit v op.
Proof.
  intros [Hn Hat] Hwell. unfold evaluateForwardStep. rewrite Hn. simpl.
  destruct op as [lhs args|token fixedBytes dynamicBytes]; simpl in *.
  - destruct Hat as [Hlhs Hjac].
    rewrite decide_False by done.
    rewrite (incrementTangents_unit _ _ _ _ _ _ Hjac), advance_Statement.
    destruct (tangentSum v Gradient_zero args) as [g|]; simpl; [|done].
    rewrite Hlhs. simpl. by destruct (decide (lhs < length v)).
  - destruct Hat as (Htoken & Hfixed & Hdynamic). destruct Hwell as [Hfs Hds].
    rewrite decide_True by done.
    unfold callLowLevelFunction_Forward. rewrite Htoken. simpl.
    rewrite <- Hfs, Hfixed. simpl. rewrite <- Hds, Hdynamic. simpl.
    by rewrite advance_LowLevelFunction.
Qed.

Lemma evaluateReverseStep_unit p c op v :
  unitAt p c op → wellRecorded op →
  evaluateReverseStep p (v, advance c op) = (λ v', (v', c)) <$> reverseUnit v op.
Proof.
  intros [Hn Hat] Hwell. unfold evaluateReverseStep.
  destruct op as [lhs args|token fixedBytes dynamicBytes]; simpl in *.
  - destruct Hat as [Hlhs Hjac]. rewrite advance_Statement. simpl.
    rewrite Nat.add_1_r. simpl. rewrite Hn. simpl.
    rewrite decide_False by done.
    rewrite Hlhs. simpl.
    destruct (v !! lhs) as [targetAdjoint|]; simpl; [|done].
    rewrite (incrementAdjoints_unit _ _ _ _ _ _ Hjac).
    destruct (distribute _ _ _) as [v'|]; simpl; [|done].
    by destruct c.
  - destruct Hat as (Htoken & Hfixed & Hdynamic). destruct Hwell as [Hfs Hds].
    rewrite advance_LowLevelFunction. simpl.
    rewrite Nat.add_1_r. simpl. rewrite Hn. simpl.
    rewrite decide_True by done.
    unfold callLowLevelFunction_Reverse. simpl.
    rewrite Nat.add_1_r. rewrite Htoken. simpl.
    rewrite <- Hfs. rewrite decide_True by lia.
    rewrite Nat.add_sub, Hfixed. simpl.
    rewrite <- Hds. rewrite decide_True by lia.
    rewrite Nat.add_sub, Hdynamic. simpl.
    by destruct c.
Qed.

Lemma pushJacobians_unit p pos args dst :
  jacobiansAt (rhsJacobians p) (rhsIdentifiers p) pos args →
  pushJacobians p (length args) pos dst =
  Some (mkTape (statementData dst) (jacobianData dst ++ args) (lowLevelFunctionData dst)
               (fixedSizeData dst) (dynamicSizeData dst) (adjoints dst),
        pos + length args).
Proof.
  revert pos dst. induction args as [|[jac id] args IH]; intros pos dst Hat; simpl.
  - rewrite app_nil_r, Nat.add_0_r. by destruct dst.
  - apply jacobiansAt_cons in Hat as (Hj & Hi & Hat).
    rewrite Hj. simpl. rewrite Hi. simpl.
    rewrite (IH _ _ Hat). simpl. rewrite <- app_assoc. simpl.
    by replace (pos + 1 + length args) with (pos + S (length args)) by lia.
Qed.

Lemma writeBytes_reserved (data src : list Byte.byte) :
  writeBytes (data ++ replicate (length src) Byte.x00) (length data) src (length src) =
  Some (data ++ src).
Proof.
  unfold writeBytes.
  rewrite decide_True by (rewrite length_app, length_replicate; lia).
  rewrite take_app_length, firstn_all.
  rewrite drop_ge by (rewrite length_app, length_replicate; lia).
  by rewrite app_nil_r.
Qed.

Lemma internalAppendStep_unit p c op dst :
  unitAt p c op → wellRecorded op →
  internalAppendStep p (dst, c) = Some (recordOne dst op, advance c op).
Proof.
  intros [Hn Hat] Hwell. unfold internalAppendStep. rewrite Hn. simpl.
  destruct op as [lhs args|token fixedBytes dynamicBytes]; simpl in *.
  - destruct Hat as [Hlhs Hjac].
    rewrite decide_False by done.
    rewrite Hlhs. simpl.
    rewrite (pushJacobians_unit _ _ _ _ Hjac), advance_Statement. done.
  - destruct Hat as (Htoken & Hfixed & Hdynamic). destruct Hwell as [Hfs Hds].
    rewrite decide_True by done.
    rewrite Htoken. simpl.
    unfold callLowLevelFunction_Count. rewrite Htoken. simpl.
    rewrite <- Hfs, Hfixed. simpl. rewrite <- Hds, Hdynamic. simpl.
    rewrite Hfixed. simpl. rewrite writeBytes_reserved. simpl.
    rewrite Hdynamic. simpl. rewrite writeBytes_reserved. simpl.
    by rewrite advance_LowLevelFunction.
Qed.

(** ** A recorded range under the three handlers *)

(** A handler that walks upwards and treats each unit as [unit] does, treats
    a recorded range as the sequence of its units, and stops at the position
    taken behind the range. *)
Lemma iterate_forward_units {A : Type}
      (body : DataPointers → A * Position → option (A * Position))
      (unit : A → Recorded → option A) v0 :
  (∀ p c op a, unitAt p c op → wellRecorded op →
     body p (a, c) = (λ a', (a', advance c op)) <$> unit a op) →
  ∀ ops2 ops1 ops3 a, Forall wellRecorded ops2 →
    iterate (body (pointers (recording v0 (ops1 ++ ops2 ++ ops3)))) (length ops2)
            (a, getPosition (recording v0 ops1)) =
    (λ a', (a', getPosition (recording v0 (ops1 ++ ops2)))) <$>
      foldl (λ acc op, acc ≫= λ a', unit a' op) (Some a) ops2.
Proof.
  intros Hbody. induction ops2 as [|op ops2 IH]; intros ops1 ops3 a Hwell.
  - simpl. by rewrite app_nil_r.
  - apply Forall_cons in Hwell as [Hop Hwell].
    rewrite foldM_cons.
    change (length (op :: ops2)) with (S (length ops2)). rewrite iterate_S.
    rewrite (Hbody _ _ op a); [|apply unitAt_recording|done].
    destruct (unit a op) as [a'|]; simpl; [|done].
    rewrite <- getPosition_recording_snoc.
    replace (ops1 ++ op :: ops2 ++ ops3) with ((ops1 ++ [op]) ++ ops2 ++ ops3)
      by (by simplify_list_eq).
    rewrite (IH (ops1 ++ [op]) ops3 a' Hwell).
    by simplify_list_eq.
Qed.

Lemma iterate_reverse_units v0 ops2 : ∀ ops1 ops3 v, Forall wellRecorded ops2 →
  iterate (evaluateReverseStep (pointers (recording v0 (ops1 ++ ops2 ++ ops3)))) (length ops2)
          (v, getPosition (recording v0 (ops1 ++ ops2))) =
  (λ v', (v', getPosition (recording v0 ops1))) <$> replayReverse ops2 v.
Proof.
  induction ops2 as [|op ops2 IH] using rev_ind; intros ops1 ops3 v Hwell.
  - simpl. by rewrite app_nil_r.
  - apply Forall_app in Hwell as [Hwell Hop]. rewrite Forall_singleton in Hop.
    unfold replayReverse, replay. rewrite reverse_snoc, foldM_cons.
    rewrite length_app, Nat.add_1_r, iterate_S.
    rewrite (app_assoc ops1 ops2 [op]), getPosition_recording_snoc.
    assert (unitAt (pointers (recording v0 (ops1 ++ (ops2 ++ [op]) ++ ops3)))
                   (getPosition (recording v0 (ops1 ++ ops2))) op) as Hat.
    { replace (ops1 ++ (ops2 ++ [op]) ++ ops3) with ((ops1 ++ ops2) ++ op :: ops3)
        by (by simplify_list_eq).
      apply unitAt_recording. }
    rewrite (evaluateReverseStep_unit _ _ op v Hat Hop).
    destruct (reverseUnit v op) as [v'|]; simpl; [|done].
    replace (ops1 ++ (ops2 ++ [op]) ++ ops3) with (ops1 ++ ops2 ++ ([op] ++ ops3))
      by (by simplify_list_eq).
    apply (IH ops1 ([op] ++ ops3) v' Hwell).
Qed.

Lemma posStmt_recording v ops : posStmt (getPosition (recording v ops)) = length ops.
Proof. by rewrite getPosition_recording. Qed.

Lemma evaluateForward_recording v0 ops1 ops2 ops3 v :
  Forall wellRecorded ops2 →
  evaluateForward (recording v0 (ops1 ++ ops2 ++ ops3))
                  (getPosition (recording v0 ops1))
                  (getPosition (recording v0 (ops1 ++ ops2))) v =
  replayForward ops2 v.
Proof.
  intros Hwell. unfold evaluateForward, internalEvaluateForward_EvalStatements.
  rewrite !posStmt_recording, length_app, Nat.add_sub'.
  rewrite (iterate_forward_units _ forwardUnit v0); [|apply @evaluateForwardStep_unit|done].
  unfold replayForward, replay.
  by destruct (foldl _ _ _).
Qed.

Lemma evaluateReverse_recording v0 ops1 ops2 ops3 v :
  Forall wellRecorded ops2 →
  evaluateReverse (recording v0 (ops1 ++ ops2 ++ ops3))
                  (getPosition (recording v0 (ops1 ++ ops2)))
                  (getPosition (recording v0 ops1)) v =
  replayReverse ops2 v.
Proof.
  intros Hwell. unfold evaluateReverse, internalEvaluateReverse_EvalStatements.
  rewrite !posStmt_recording, length_app, Nat.add_sub'.
  rewrite iterate_reverse_units by done.
  by destruct (replayReverse ops2 v).
Qed.

Lemma evaluateReverse_whole v0 ops v :
  Forall wellRecorded ops →
  evaluateReverse (recording v0 ops) (getPosition (recording v0 ops))
                  (getZeroPosition (recording v0 ops)) v = replayReverse ops v.
Proof.
  intros Hwell.
  pose proof (evaluateReverse_recording v0 [] ops [] v Hwell) as Heval.
  by rewrite app_nil_r in Heval.
Qed.

Lemma record_foldM dst ops :
  foldl (λ acc op, acc ≫= λ dst', Some (recordOne dst' op)) (Some dst) ops =
  Some (record dst ops).
Proof.
  revert dst. induction ops as [|op ops IH]; intros dst; simpl; [done|].
  apply IH.
Qed.

Lemma append_recording dst v0 ops1 ops2 ops3 :
  Forall wellRecorded ops2 →
  append dst (recording v0 (ops1 ++ ops2 ++ ops3))
         (getPosition (recording v0 ops1))
         (getPosition (recording v0 (ops1 ++ ops2))) =
  Some (record dst ops2).
Proof.
  intros Hwell. unfold append, internalAppend.
  rewrite !posStmt_recording, length_app, Nat.add_sub'.
  rewrite (iterate_forward_units _ (λ dst' op, Some (recordOne dst' op)) v0); [| |done].
  - by rewrite record_foldM.
  - intros p c op a Hat Hop. by rewrite (internalAppendStep_unit p c op a Hat Hop).
Qed.

(** ** The loops are the [while] loops of the source *)

Lemma evaluateForwardStep_posStmt p v c v' c' :
  evaluateForwardStep p (v, c) = Some (v', c') → posStmt c' = posStmt c + 1.
Proof.
  unfold evaluateForwardStep. intros Hstep.
  destruct (numberOfJacobians p !! posStmt c) as [argsSize|]; simpl in Hstep; [|done].
  destruct (decide (StatementLowLevelFunctionTag = argsSize)).
  - unfold callLowLevelFunction_Forward in Hstep.
    repeat (simplify_option_eq || case_match); done.
  - repeat (simplify_option_eq || case_match); done.
Qed.

(** [while (curStmtPos < endStmtPos) { body; curStmtPos += 1; }] *)
Lemma internalEvaluateForward_EvalStatements_while p v c endStmtPos :
  internalEvaluateForward_EvalStatements p v c endStmtPos =
  if decide (posStmt c < endStmtPos) then
    evaluateForwardStep p (v, c) ≫=
      λ st, internalEvaluateForward_EvalStatements p st.1 st.2 endStmtPos
  else Some (v, c).
Proof.
  unfold internalEvaluateForward_EvalStatements.
  destruct (decide (posStmt c < endStmtPos)) as [Hlt|Hge].
  - replace (endStmtPos - posStmt c) with (S (endStmtPos - (posStmt c + 1))) by lia.
    rewrite iterate_S.
    destruct (evaluateForwardStep p (v, c)) as [[v' c']|] eqn:Hstep; simpl; [|done].
    by rewrite (evaluateForwardStep_posStmt _ _ _ _ _ Hstep).
  - by replace (endStmtPos - posStmt c) with 0 by lia.
Qed.

Lemma evaluateReverseStep_posStmt p v c v' c' :
  evaluateReverseStep p (v, c) = Some (v', c') → posStmt c = posStmt c' + 1.
Proof.
  unfold evaluateReverseStep. intros Hstep.
  destruct (posStmt c) as [|stmtPos] eqn:Hpos; [done|].
  simpl in Hstep.
  destruct (numberOfJacobians p !! stmtPos) as [argsSize|]; simpl in Hstep; [|done].
  destruct (decide (StatementLowLevelFunctionTag = argsSize)).
  - unfold callLowLevelFunction_Reverse in Hstep. simpl in Hstep.
    repeat (simplify_option_eq || case_match); simpl; lia.
  - repeat (simplify_option_eq || case_match); simpl; lia.
Qed.

(** [while (curStmtPos > endStmtPos) { curStmtPos -= 1; body; }] *)
Lemma internalEvaluateReverse_EvalStatements_while p v c endStmtPos :
  internalEvaluateReverse_EvalStatements p v c endStmtPos =
  if decide (endStmtPos < posStmt c) then
    evaluateReverseStep p (v, c) ≫=
      λ st, internalEvaluateReverse_EvalStatements p st.1 st.2 endStmtPos
  else Some (v, c).
Proof.
  unfold internalEvaluateReverse_EvalStatements.
  destruct (decide (endStmtPos < posStmt c)) as [Hlt|Hge].
  - replace (posStmt c - endStmtPos) with (S (posStmt c - 1 - endStmtPos)) by lia.
    rewrite iterate_S.
    destruct (evaluateReverseStep p (v, c)) as [[v' c']|] eqn:Hstep; simpl; [|done].
    rewrite (evaluateReverseStep_posStmt _ _ _ _ _ Hstep).
    by replace (posStmt c' + 1 - 1) with (posStmt c') by lia.
  - by replace (posStmt c - endStmtPos) with 0 by lia.
Qed.

Lemma internalAppendStep_posStmt p dst c dst' c' :
  internalAppendStep p (dst, c) = Some (dst', c') → posStmt c' = posStmt c + 1.
Proof.
  unfold internalAppendStep. intros Hstep.
  destruct (numberOfJacobians p !! posStmt c) as [argsSize|]; simpl in Hstep; [|done].
  destruct (decide (StatementLowLevelFunctionTag = argsSize)).
  - unfold callLowLevelFunction_Count in Hstep.
    destruct (tokenPtr p !! _) as [token|]; simpl in Hstep; [|done].
    destruct (readBytes (fixedDataPtr p) _ _) as [fixedBytes|]; simpl in Hstep; [|done].
    destruct (readBytes (dynamicDataPtr p) _ _) as [dynamicBytes|]; simpl in Hstep; [|done].
    destruct (readBytes (fixedDataPtr p) _ _) as [fixedBytes'|]; simpl in Hstep; [|done].
    destruct (writeBytes _ _ _ _) as [dstFixed|]; simpl in Hstep; [|done].
    destruct (readBytes (dynamicDataPtr p) _ _) as [dynamicBytes'|]; simpl in Hstep; [|done].
    destruct (writeBytes _ _ _ _) as [dstDynamic|]; simpl in Hstep; [|done].
    by injection Hstep as <- <-.
  - repeat (simplify_option_eq || case_match); done.
Qed.

(** [while (curStmtPos < endStmtPos) { body; ++curStmtPos; }] *)
Lemma internalAppend_while p dst c endStmtPos :
  internalAppend p dst c endStmtPos =
  if decide (posStmt c < endStmtPos) then
    internalAppendStep p (dst, c) ≫= λ st, internalAppend p st.1 st.2 endStmtPos
  else Some (dst, c).
Proof.
  unfold internalAppend.
  destruct (decide (posStmt c < endStmtPos)) as [Hlt|Hge].
  - replace (endStmtPos - posStmt c) with (S (endStmtPos - (posStmt c + 1))) by lia.
    rewrite iterate_S.
    destruct (internalAppendStep p (dst, c)) as [[dst' c']|] eqn:Hstep; simpl; [|done].
    by rewrite (internalAppendStep_posStmt _ _ _ _ _ Hstep).
  - by replace (endStmtPos - posStmt c) with 0 by lia.
Qed.

(** An empty range runs no statement. *)
Lemma evaluateForward_empty t (start end_ : Position) v :
  posStmt end_ ≤ posStmt start → evaluateForward t start end_ v = Some v.
Proof.
  intros Hle. unfold evaluateForward, internalEvaluateForward_EvalStatements.
  by replace (posStmt end_ - posStmt start) with 0 by lia.
Qed.

Lemma evaluateReverse_empty t (start end_ : Position) v :
  posStmt start ≤ posStmt end_ → evaluateReverse t start end_ v = Some v.
Proof.
  intros Hle. unfold evaluateReverse, internalEvaluateReverse_EvalStatements.
  by replace (posStmt start - posStmt end_) with 0 by lia.
Qed.

(** ** Replay of a recorded range *)

Lemma replayForward_app ops1 ops2 v :
  replayForward (ops1 ++ ops2) v = replayForward ops1 v ≫= replayForward ops2.
Proof. unfold replayForward, replay. apply foldM_app. Qed.

Lemma replayReverse_app ops1 ops2 v :
  replayReverse (ops1 ++ ops2) v = replayReverse ops2 v ≫= replayReverse ops1.
Proof. unfold replayReverse, replay. rewrite reverse_app. apply foldM_app. Qed.

(** C1.  Reverse replay of a recorded range, started at the position taken
    behind the range and run down to the position taken in front of it, is
    the sequence of the units of the range in decreasing recording order,
    where a normal statement first reads the adjoint of its target, then
    zeroes that slot, and then adds [partial_i * targetAdjoint] to the slot of
    each argument identifier ([reverseUnit]). *)
Theorem evaluateReverse_decreasing_read_zero_distribute v0 ops1 ops2 ops3 v :
  Forall wellRecorded ops2 →
  evaluateReverse (recording v0 (ops1 ++ ops2 ++ ops3))
                  (getPosition (recording v0 (ops1 ++ ops2)))
                  (getPosition (recording v0 ops1)) v =
  foldl (λ acc op, acc ≫= λ adjointVector,
           match op with
           | Statement lhs args =>
               targetAdjoint ← adjointVector !! lhs;
               distribute (<[lhs := Gradient_zero]> adjointVector) targetAdjoint (reverse args)
           | LowLevelFunction token fixedBytes dynamicBytes =>
               Some (llfReverse token fixedBytes dynamicBytes adjointVector)
           end)
        (Some v) (reverse ops2).
Proof. apply evaluateReverse_recording. Qed.

(** C2.  Forward replay of a recorded range, started at the position taken in
    front of the range and run up to the position taken behind it, is the
    sequence of the units of the range in increasing recording order, where
    a normal statement computes the sum over its arguments of
    [partial_i * tangent[argId_i]] and overwrites the tangent slot of its
    target identifier with that sum ([forwardUnit]). *)
Theorem evaluateForward_increasing_overwrite v0 ops1 ops2 ops3 v :
  Forall wellRecorded ops2 →
  evaluateForward (recording v0 (ops1 ++ ops2 ++ ops3))
                  (getPosition (recording v0 ops1))
                  (getPosition (recording v0 (ops1 ++ ops2))) v =
  foldl (λ acc op, acc ≫= λ tangents,
           match op with
           | Statement lhs args =>
               targetTangent ← tangentSum tangents Gradient_zero args;
               if decide (lhs < length tangents)
               then Some (<[lhs := targetTangent]> tangents) else None
           | LowLevelFunction token fixedBytes dynamicBytes =>
               Some (llfForward token fixedBytes dynamicBytes tangents)
           end)
        (Some v) ops2.
Proof. apply evaluateForward_recording. Qed.

(** C4 (amended).  For three positions [p1 ≤ p2 ≤ p3] taken from one
    recording and every initial vector: in the forward direction, evaluating
    the range (p1,p2) and then the range (p2,p3) gives the same vector as
    evaluating the range (p1,p3); in the reverse direction, evaluating the
    range (p2,p3) and then the range (p1,p2) gives the same vector as
    evaluating the range (p1,p3). *)
Theorem range_composable v0 ops1 ops2 ops3 ops4 v :
  Forall wellRecorded ops2 → Forall wellRecorded ops3 →
  let t := recording v0 (ops1 ++ ops2 ++ ops3 ++ ops4) in
  let p1 := getPosition (recording v0 ops1) in
  let p2 := getPosition (recording v0 (ops1 ++ ops2)) in
  let p3 := getPosition (recording v0 (ops1 ++ ops2 ++ ops3)) in
  evaluateForward t p1 p2 v ≫= evaluateForward t p2 p3 = evaluateForward t p1 p3 v ∧
  evaluateReverse t p3 p2 v ≫= evaluateReverse t p2 p1 = evaluateReverse t p3 p1 v.
Proof.
  intros Hwell2 Hwell3 t p1 p2 p3.
  assert (Forall wellRecorded (ops2 ++ ops3)) as Hwell23 by (by apply Forall_app).
  assert (∀ a, evaluateForward t p1 p2 a = replayForward ops2 a) as Hf12.
  { intros a. by apply (evaluateForward_recording v0 ops1 ops2 (ops3 ++ ops4)). }
  assert (∀ a, evaluateReverse t p2 p1 a = replayReverse ops2 a) as Hr12.
  { intros a. by apply (evaluateReverse_recording v0 ops1 ops2 (ops3 ++ ops4)). }
  assert (t = recording v0 ((ops1 ++ ops2) ++ ops3 ++ ops4)) as Ht23
    by (unfold t; by rewrite <- app_assoc).
  assert (p3 = getPosition (recording v0 ((ops1 ++ ops2) ++ ops3))) as Hp3
    by (unfold p3; by rewrite <- app_assoc).
  assert (∀ a, evaluateForward t p2 p3 a = replayForward ops3 a) as Hf23.
  { intros a. rewrite Ht23, Hp3. by apply evaluateForward_recording. }
  assert (∀ a, evaluateReverse t p3 p2 a = replayReverse ops3 a) as Hr23.
  { intros a. rewrite Ht23, Hp3. by apply evaluateReverse_recording. }
  assert (t = recording v0 (ops1 ++ (ops2 ++ ops3) ++ ops4)) as Ht13
    by (unfold t; by rewrite <- app_assoc).
  assert (p3 = getPosition (recording v0 (ops1 ++ (ops2 ++ ops3)))) as Hp13 by done.
  assert (∀ a, evaluateForward t p1 p3 a = replayForward (ops2 ++ ops3) a) as Hf13.
  { intros a. rewrite Ht13, Hp13. by apply evaluateForward_recording. }
  assert (∀ a, evaluateReverse t p3 p1 a = replayReverse (ops2 ++ ops3) a) as Hr13.
  { intros a. rewrite Ht13, Hp13. by apply evaluateReverse_recording. }
  split.
  - rewrite Hf12, Hf13, replayForward_app.
    destruct (replayForward ops2 v) as [v'|]; simpl; [apply Hf23|done].
  - rewrite Hr23, Hr13, replayReverse_app.
    destruct (replayReverse ops3 v) as [v'|]; simpl; [apply Hr12|done].
Qed.

(** ** Editing *)

Lemma resetTo_recording v ops1 ops2 :
  resetTo (recording v (ops1 ++ ops2)) (getPosition (recording v ops1)) = recording v ops1.
Proof.
  rewrite getPosition_recording. unfold resetTo, recording.
  rewrite !record_streams. simpl.
  rewrite fmap_app, !bind_app.
  rewrite <- (length_fmap statementOf ops1).
  by rewrite !take_app_length.
Qed.

Lemma record_recording v ops1 ops2 :
  record (recording v ops1) ops2 = recording v (ops1 ++ ops2).
Proof. unfold recording. by rewrite record_app. Qed.

Lemma append_whole dst v ops :
  Forall wellRecorded ops →
  append dst (recording v ops) (getZeroPosition (recording v ops))
         (getPosition (recording v ops)) = Some (record dst ops).
Proof.
  intros Hwell.
  pose proof (append_recording dst v [] ops [] Hwell) as Happ.
  by rewrite app_nil_r in Happ.
Qed.

Lemma append_tail dst v ops1 ops2 :
  Forall wellRecorded ops2 →
  append dst (recording v (ops1 ++ ops2)) (getPosition (recording v ops1))
         (getPosition (recording v (ops1 ++ ops2))) = Some (record dst ops2).
Proof.
  intros Hwell.
  pose proof (append_recording dst v ops1 ops2 [] Hwell) as Happ.
  by rewrite app_nil_r in Happ.
Qed.

Lemma eraseWith_recording v ops1 ops2 ops3 vH opsH :
  Forall wellRecorded ops3 → Forall wellRecorded opsH →
  eraseWith (recording v (ops1 ++ ops2 ++ ops3))
            (getPosition (recording v ops1))
            (getPosition (recording v (ops1 ++ ops2)))
            (recording vH opsH) =
  Some (recording v (ops1 ++ opsH ++ ops3), recording vH []).
Proof.
  intros Hwell3 HwellH. unfold eraseWith.
  rewrite (app_assoc ops1 ops2 ops3), append_tail by done. simpl.
  rewrite <- (app_assoc ops1 ops2 ops3), resetTo_recording.
  rewrite !record_recording.
  rewrite append_whole by (by apply Forall_app). simpl.
  rewrite record_recording.
  unfold reset, resetTo. simpl. rewrite !take_0.
  unfold recording at 2. rewrite (record_streams _ (opsH ++ ops3)). done.
Qed.

(** C5.  [erase(start, end)] of a recorded range appends the tail
    [end, tapeEnd) to a scratch tape, resets the source tape to [start] and
    appends the content of the scratch tape; the streams of the edited tape
    are those of the tape on which the range was never recorded, and so
    every replay of it gives what the replay of that tape gives. *)
Theorem erase_as_never_recorded v ops1 ops2 ops3 :
  Forall wellRecorded ops3 →
  let t := recording v (ops1 ++ ops2 ++ ops3) in
  let start := getPosition (recording v ops1) in
  let end_ := getPosition (recording v (ops1 ++ ops2)) in
  let neverRecorded := recording v (ops1 ++ ops3) in
  ∃ scratch t',
    append newTape t end_ (getPosition t) = Some scratch ∧
    pointers scratch = pointers (recording v ops3) ∧
    append (resetTo t start) scratch (getZeroPosition scratch) (getPosition scratch) = Some t' ∧
    erase t start end_ = Some t' ∧
    pointers t' = pointers neverRecorded ∧
    getPosition t' = getPosition neverRecorded ∧
    (∀ s e a, evaluateForward t' s e a = evaluateForward neverRecorded s e a) ∧
    (∀ s e a, evaluateReverse t' s e a = evaluateReverse neverRecorded s e a).
Proof.
  intros Hwell t start end_ neverRecorded.
  exists (recording [Gradient_zero] ops3), neverRecorded.
  split; [|split; [|split; [|split; [|done]]]].
  - unfold t, end_. rewrite (app_assoc ops1 ops2 ops3). by apply append_tail.
  - by rewrite !pointers_recording.
  - unfold t, start. rewrite resetTo_recording, append_whole by done.
    by rewrite record_recording.
  - unfold erase, t, start, end_.
    change newTape with (recording (Real:=Real) [Gradient_zero] []).
    rewrite (eraseWith_recording v ops1 ops2 ops3 [Gradient_zero] []) by done.
    done.
Qed.

(** C6.  [append(srcTape, start, end)] over a recorded range of the source
    leaves the adjoints of the destination as they are and extends each
    stream of the destination by what the source holds for the range, in
    recording order: one statement entry per unit (target identifier and
    argument count of a statement), the (partial, argument identifier) pairs
    of every statement, and for every low level function its token and its
    fixed and dynamic bytes, whose sizes are those the count call mode
    reports at the block. *)
Theorem append_copies_range dst v0 ops1 ops2 ops3 :
  Forall wellRecorded ops2 →
  let src := recording v0 (ops1 ++ ops2 ++ ops3) in
  append dst src (getPosition (recording v0 ops1)) (getPosition (recording v0 (ops1 ++ ops2))) =
  Some (mkTape (statementData dst ++ (statementOf <$> ops2))
               (jacobianData dst ++ (ops2 ≫= jacobiansOf))
               (lowLevelFunctionData dst ++ (ops2 ≫= tokensOf))
               (fixedSizeData dst ++ (ops2 ≫= fixedBytesOf))
               (dynamicSizeData dst ++ (ops2 ≫= dynamicBytesOf))
               (adjoints dst)) ∧
  ∀ before token fixedBytes dynamicBytes after,
    ops2 = before ++ LowLevelFunction token fixedBytes dynamicBytes :: after →
    let c := getPosition (recording v0 (ops1 ++ before)) in
    callLowLevelFunction_Count (pointers src)
                               (posDynamicData c) (posFixedData c) (posLLFTokenData c) =
    Some (length fixedBytes, length dynamicBytes,
          (posDynamicData c + length dynamicBytes, posFixedData c + length fixedBytes,
           posLLFTokenData c + 1)).
Proof.
  intros Hwell src. split.
  - unfold src. rewrite append_recording by done. by rewrite record_streams.
  - intros before token fixedBytes dynamicBytes after -> c.
    apply Forall_app in Hwell as [_ Hwell]. apply Forall_cons in Hwell as [[Hfs Hds] _].
    pose proof (unitAt_recording v0 (ops1 ++ before)
                  (LowLevelFunction token fixedBytes dynamicBytes) (after ++ ops3)) as [_ Hat].
    destruct Hat as (Htoken & Hfixed & Hdynamic).
    replace ((ops1 ++ before) ++ LowLevelFunction token fixedBytes dynamicBytes :: after ++ ops3)
      with (ops1 ++ (before ++ LowLevelFunction token fixedBytes dynamicBytes :: after) ++ ops3)
      in Htoken, Hfixed, Hdynamic by (by simplify_list_eq).
    fold src in Htoken, Hfixed, Hdynamic. fold c in Htoken, Hfixed, Hdynamic.
    generalize dependent (pointers src). generalize dependent c.
    intros c p Htoken Hfixed Hdynamic.
    unfold callLowLevelFunction_Count.
    rewrite Htoken. simpl. rewrite <- Hfs, Hfixed. simpl. rewrite <- Hds, Hdynamic. done.
Qed.

(** Whenever [erase(start, end, emptyTape)] runs through, the helper tape is
    left at its zero position. *)
Lemma eraseWith_helper_at_zero t (start end_ : Position) helper t' helper' :
  eraseWith t start end_ helper = Some (t', helper') →
  getPosition helper' = getZeroPosition helper'.
Proof.
  unfold eraseWith. intros Herase.
  destruct (append helper t end_ (getPosition t)) as [helper1|]; simpl in Herase; [|done].
  destruct (append (resetTo t start) helper1 _ _) as [t2|]; simpl in Herase; [|done].
  by injection Herase as _ <-.
Qed.

(** C10.  After [erase(start, end, emptyTape)] the helper tape is at its zero
    position and all its streams are empty, whatever recording it held
    before the call. *)
Theorem eraseWith_resets_helper v ops1 ops2 ops3 vH opsH :
  Forall wellRecorded ops3 → Forall wellRecorded opsH →
  ∃ t' helper',
    eraseWith (recording v (ops1 ++ ops2 ++ ops3))
              (getPosition (recording v ops1))
              (getPosition (recording v (ops1 ++ ops2)))
              (recording vH opsH) = Some (t', helper') ∧
    getPosition helper' = getZeroPosition helper' ∧
    statementData helper' = [] ∧ jacobianData helper' = [] ∧
    lowLevelFunctionData helper' = [] ∧
    fixedSizeData helper' = [] ∧ dynamicSizeData helper' = [].
Proof.
  intros Hwell3 HwellH.
  exists (recording v (ops1 ++ opsH ++ ops3)), (recording vH []).
  split; [by apply eraseWith_recording|done].
Qed.

(** ** [clearAdjoints] *)

Lemma clearFunc_fold (n : nat) (stmts : list (Identifier * ArgumentSize)) :
  ∀ v, length v = n →
    length (foldl (λ adj stmt, clearFunc n adj stmt.1 stmt.2) v stmts) = n ∧
    ∀ id, foldl (λ adj stmt, clearFunc n adj stmt.1 stmt.2) v stmts !! id =
          if decide (id ∈ stmts.*1 ∧ id < n) then Some Gradient_zero else v !! id.
Proof.
  induction stmts as [|[index stmtSize] stmts IH]; intros v Hlen; cbn [foldl fst snd].
  - split; [done|]. intros id. rewrite decide_False; [done|].
    intros [Hin _]. by apply elem_of_nil in Hin.
  - assert (length (clearFunc n v index stmtSize) = n) as Hlen'.
    { unfold clearFunc. destruct (decide _); [|done]. by rewrite length_insert. }
    destruct (IH _ Hlen') as [Hlength Hlookup]. split; [done|].
    intros id. rewrite Hlookup, fmap_cons. cbn [fst].
    destruct (decide (id ∈ stmts.*1 ∧ id < n)) as [[Hin Hlt]|Hnot].
    + rewrite decide_True; [done|]. split; [by apply list_elem_of_further|done].
    + unfold clearFunc.
      destruct (decide (index < n)) as [Hindex|Hindex].
      * destruct (decide (index = id)) as [->|Hne].
        -- rewrite list_lookup_insert_eq by lia.
           rewrite decide_True; [done|]. split; [apply list_elem_of_here|done].
        -- rewrite list_lookup_insert_ne by done.
           rewrite decide_False; [done|].
           intros [Hin Hlt]. apply elem_of_cons in Hin as [->|Hin]; [done|].
           by apply Hnot.
      * rewrite decide_False; [done|].
        intros [Hin Hlt]. apply elem_of_cons in Hin as [->|Hin]; [done|].
        by apply Hnot.
Qed.

(** C7.  [clearAdjoints(start, end)] depends on the statement stream and on
    the adjoint vector only; it changes no stream and does not change the
    size of the adjoint vector; the adjoint slot of an identifier is zero
    afterwards if the identifier is the target of a statement of the range
    and is less than the size of the adjoint vector, and is what it was
    otherwise. *)
Theorem clearAdjoints_frame (t : Tape) (start end_ : Position) :
  let targets :=
    (take (posStmt start - posStmt end_) (drop (posStmt end_) (statementData t))).*1 in
  let t' := clearAdjoints t start end_ in
  length (adjoints t') = length (adjoints t) ∧
  (∀ id, adjoints t' !! id =
         if decide (id ∈ targets ∧ id < length (adjoints t))
         then Some Gradient_zero else adjoints t !! id) ∧
  statementData t' = statementData t ∧ jacobianData t' = jacobianData t ∧
  lowLevelFunctionData t' = lowLevelFunctionData t ∧
  fixedSizeData t' = fixedSizeData t ∧ dynamicSizeData t' = dynamicSizeData t ∧
  (∀ jacobians tokens fixedBytes dynamicBytes,
     adjoints (clearAdjoints (mkTape (statementData t) jacobians tokens fixedBytes dynamicBytes
                                     (adjoints t)) start end_) = adjoints t').
Proof.
  intros targets t'. unfold t', clearAdjoints, forEachReverse. simpl.
  destruct (clearFunc_fold (length (adjoints t))
              (reverse (take (posStmt start - posStmt end_)
                             (drop (posStmt end_) (statementData t))))
              (adjoints t) eq_refl) as [Hlength Hlookup].
  split; [done|]. split; [|done].
  intros id. rewrite Hlookup. unfold targets.
  rewrite fmap_reverse.
  destruct (decide (id ∈ _ ∧ _)) as [[Hin Hlt]|Hnot].
  - rewrite decide_True; [done|]. split; [by apply (proj1 (elem_of_reverse _ _)) in Hin|done].
  - rewrite decide_False; [done|]. intros [Hin Hlt]. apply Hnot.
    split; [by apply elem_of_reverse_2|done].
Qed.

End Properties.

(** ** Gradient access *)

Section GradientAccessProperties.
Context {Real Gradient : Type}.
Context `{!TapeTypes Real Gradient}.

Local Abbreviation Tape := (Tape Real Gradient).

Lemma resizeAdjointsFor_length identifier (v : list Gradient) :
  length v ≤ identifier → length (resizeAdjointsFor identifier v) = identifier + 1.
Proof. intros Hle. unfold resizeAdjointsFor. rewrite length_app, length_replicate. lia. Qed.

Lemma resizeAdjointsFor_lookup identifier (v : list Gradient) i :
  i < length v → resizeAdjointsFor identifier v !! i = v !! i.
Proof. intros Hlt. unfold resizeAdjointsFor. by rewrite lookup_app_l. Qed.

(** C9.  Under the default bounds checking policy, for an identifier that
    has no adjoint slot: the constant reference and [getGradient] refer to
    slot 0 of the adjoint vector and read the value stored there; the
    mutable reference and [setGradient] resize the adjoint vector so that the
    identifier has a slot, keep the slots that existed, and the write
    succeeds. *)
Theorem gradient_access_default_bounds_checking (t : Tape) identifier (g : Gradient) :
  0 < length (adjoints t) →
  length (adjoints t) ≤ identifier →
  gradient_const identifier BoundsChecking_True t = Some 0 ∧
  (∃ dummy, adjoints t !! 0 = Some dummy ∧
            getGradient identifier BoundsChecking_True t = Some dummy) ∧
  ∃ resized t',
    gradient identifier BoundsChecking_True t = Some (resized, identifier) ∧
    setGradient identifier g BoundsChecking_True t = Some t' ∧
    length (adjoints t) < length (adjoints resized) ∧
    identifier < length (adjoints resized) ∧
    length (adjoints t') = length (adjoints resized) ∧
    adjoints t' !! identifier = Some g ∧
    ∀ i, i < length (adjoints t) → adjoints t' !! i = adjoints t !! i.
Proof.
  intros Hpos Hout.
  unfold getGradient, setGradient, gradient_const, gradient.
  rewrite !decide_True by done. simpl.
  split; [done|]. split.
  - destruct (adjoints t) as [|dummy v] eqn:Hadj; [simpl in Hpos; lia|].
    by exists dummy.
  - eexists _, _. split; [done|]. split; [done|]. simpl.
    rewrite length_insert, resizeAdjointsFor_length by done.
    split; [lia|]. split; [lia|]. split; [done|]. split.
    + apply list_lookup_insert_eq. rewrite resizeAdjointsFor_length by done. lia.
    + intros i Hi. rewrite list_lookup_insert_ne by lia.
      by apply resizeAdjointsFor_lookup.
Qed.

End GradientAccessProperties.

(** ** The static requirement on the index manager *)

(** C8.  Instantiating [JacobianReuseTape] with an index manager whose
    [IsLinear] flag is set is rejected with the message of the static
    assertion; the tape exists only for an index manager whose flag is
    false, and then nothing has been recorded on it. *)
Theorem JacobianReuseTape_requires_reuse {Real Gradient : Type}
        `{!TapeTypes Real Gradient} (indexManager : IndexManager) :
  match JacobianReuseTape (Real:=Real) (Gradient:=Gradient) indexManager with
  | CompileError message =>
      IsLinear indexManager = true ∧
      message = "This class requires an index manager with a reuse scheme."
  | Instantiated t =>
      IsLinear indexManager = false ∧ getPosition t = getZeroPosition t
  end.
Proof. unfold JacobianReuseTape. by destruct (IsLinear indexManager). Qed.

(** ** The concrete scenario *)

Section Scenario.
#[local] Existing Instance TapeTypes_Z.
#[local] Existing Instance Config_255.
Context (table : LowLevelFunctionTable Z).

Ltac lookup_inserts :=
  repeat first
    [ rewrite list_lookup_insert_eq by (rewrite ?length_insert, ?length_replicate; lia)
    | rewrite list_lookup_insert_ne by done
    | rewrite lookup_replicate_2 by lia ].

(** C3.  The recording [t1 = x * y], [z = t1 + x] with [x = 2], [y = 3], on
    any four distinct identifiers: from the adjoint vector that is zero
    except for [adjoint(z) = 1], reverse replay of the whole recording ends
    with [adjoint(x) = 4], [adjoint(y) = 2] and [adjoint(t1) = 0]. *)
Theorem scenario_reverse_adjoints (idX idY idT1 idZ n : nat) (v0 : list Z) :
  NoDup [idX; idY; idT1; idZ] →
  idX < n → idY < n → idT1 < n → idZ < n →
  let t := recording v0 (scenario 2 3 idX idY idT1 idZ) in
  ∃ v', evaluateReverse t (getPosition t) (getZeroPosition t)
                        (<[idZ := 1%Z]> (replicate n 0%Z)) = Some v' ∧
        v' !! idX = Some 4%Z ∧ v' !! idY = Some 2%Z ∧ v' !! idT1 = Some 0%Z.
Proof.
  intros Hdup HX HY HT1 HZ t.
  apply NoDup_cons in Hdup as [HnX Hdup].
  apply NoDup_cons in Hdup as [HnY Hdup].
  apply NoDup_cons in Hdup as [HnT1 _].
  apply not_elem_of_cons in HnX as [Hxy HnX].
  apply not_elem_of_cons in HnX as [Hxt HnX].
  apply not_elem_of_cons in HnX as [Hxz _].
  apply not_elem_of_cons in HnY as [Hyt HnY].
  apply not_elem_of_cons in HnY as [Hyz _].
  apply not_elem_of_cons in HnT1 as [Htz _].
  unfold t. rewrite evaluateReverse_whole
    by (repeat constructor; simpl; lia).
  unfold replayReverse, replay, scenario. simpl.
  lookup_inserts. simpl. lookup_inserts. simpl. lookup_inserts. simpl.
  lookup_inserts. simpl. lookup_inserts. simpl. lookup_inserts. simpl.
  eexists. split; [done|].
  lookup_inserts. done.
Qed.

End Scenario.


(** ** Concrete runs *)

Section Examples.
#[local] Existing Instance TapeTypes_Z.
#[local] Existing Instance Config_255.
#[local] Existing Instance LowLevelFunctionTable_example.

Ltac solve_wellRecorded := repeat constructor; simpl; lia.

Lemma examplePrefix_wellRecorded : Forall wellRecorded examplePrefix.
Proof. solve_wellRecorded. Defined.

Lemma exampleRange_wellRecorded : Forall wellRecorded exampleRange.
Proof. solve_wellRecorded. Defined.

Lemma exampleSuffix_wellRecorded : Forall wellRecorded exampleSuffix.
Proof. solve_wellRecorded. Defined.

Example evaluateReverse_example :
  evaluateReverse exampleTape (positionAfter (examplePrefix ++ exampleRange))
                  (positionAfter []) [0; 0; 0; 0; 1; 0]%Z = Some [0; 4; 11; 0; 0; 0]%Z.
Proof. reflexivity. Qed.

Example evaluateForward_example :
  evaluateForward exampleTape (positionAfter [])
                  (positionAfter (examplePrefix ++ exampleRange))
                  [0; 1; 0; 0; 0; 0]%Z = Some [0; 9; 0; 3; 12; 0]%Z.
Proof. reflexivity. Qed.

Lemma evaluateReverse_decreasing_read_zero_distribute_witness :
  Forall wellRecorded exampleRange ∧
  evaluateReverse exampleTape (positionAfter (examplePrefix ++ exampleRange))
                  (positionAfter examplePrefix) [0; 0; 0; 0; 1; 0]%Z =
  foldl (λ acc op, acc ≫= λ adjointVector,
           match op with
           | Statement lhs args =>
               targetAdjoint ← adjointVector !! lhs;
               distribute (<[lhs := Gradient_zero]> adjointVector) targetAdjoint (reverse args)
           | LowLevelFunction token fixedBytes dynamicBytes =>
               Some (llfReverse token fixedBytes dynamicBytes adjointVector)
           end)
        (Some [0; 0; 0; 0; 1; 0]%Z) (reverse exampleRange).
Proof.
  split; [exact exampleRange_wellRecorded|].
  exact (evaluateReverse_decreasing_read_zero_distribute
           [] examplePrefix exampleRange exampleSuffix [0; 0; 0; 0; 1; 0]%Z
           exampleRange_wellRecorded).
Defined.

Lemma evaluateForward_increasing_overwrite_witness :
  Forall wellRecorded exampleRange ∧
  evaluateForward exampleTape (positionAfter examplePrefix)
                  (positionAfter (examplePrefix ++ exampleRange))
                  [0; 1; 0; 5; 0; 0]%Z =
  foldl (λ acc op, acc ≫= λ tangents,
           match op with
           | Statement lhs args =>
               targetTangent ← tangentSum tangents Gradient_zero args;
               if decide (lhs < length tangents)
               then Some (<[lhs := targetTangent]> tangents) else None
           | LowLevelFunction token fixedBytes dynamicBytes =>
               Some (llfForward token fixedBytes dynamicBytes tangents)
           end)
        (Some [0; 1; 0; 5; 0; 0]%Z) exampleRange.
Proof.
  split; [exact exampleRange_wellRecorded|].
  exact (evaluateForward_increasing_overwrite
           [] examplePrefix exampleRange exampleSuffix [0; 1; 0; 5; 0; 0]%Z
           exampleRange_wellRecorded).
Defined.

Lemma scenario_reverse_adjoints_witness :
  (NoDup [1; 2; 3; 4] ∧ 1 < 5 ∧ 2 < 5 ∧ 3 < 5 ∧ 4 < 5) ∧
  ∃ v', evaluateReverse scenarioTape (getPosition scenarioTape) (getZeroPosition scenarioTape)
                        (<[4 := 1%Z]> (replicate 5 0%Z)) = Some v' ∧
        v' !! 1 = Some 4%Z ∧ v' !! 2 = Some 2%Z ∧ v' !! 3 = Some 0%Z.
Proof.
  assert (NoDup [1; 2; 3; 4]) as Hdup by (apply (bool_decide_unpack _); vm_compute; exact I).
  split; [repeat split; [exact Hdup|lia..]|].
  apply (scenario_reverse_adjoints LowLevelFunctionTable_example 1 2 3 4 5 [] Hdup); lia.
Defined.

(** C4, as stated, fails in the reverse direction: on the scenario, with the
    positions taken before the first statement, between the two statements
    and behind the second one, evaluating the range (p1,p2) and then the
    range (p2,p3) in reverse does not give what evaluating (p1,p3) gives. *)
Lemma reverse_ranges_in_recording_order_differ :
  evaluateReverse scenarioTape (positionAfter (take 1 scenarioOps)) (positionAfter [])
                  scenarioSeed ≫=
    evaluateReverse scenarioTape (positionAfter scenarioOps) (positionAfter (take 1 scenarioOps))
  ≠ evaluateReverse scenarioTape (positionAfter scenarioOps) (positionAfter []) scenarioSeed.
Proof. vm_compute. discriminate. Qed.

Lemma range_composable_witness :
  (Forall wellRecorded examplePrefix ∧ Forall wellRecorded exampleRange) ∧
  (evaluateForward exampleTape (positionAfter []) (positionAfter examplePrefix)
                   [0; 1; 0; 0; 1; 0]%Z ≫=
     evaluateForward exampleTape (positionAfter examplePrefix)
                     (positionAfter (examplePrefix ++ exampleRange))
   = evaluateForward exampleTape (positionAfter [])
                     (positionAfter (examplePrefix ++ exampleRange)) [0; 1; 0; 0; 1; 0]%Z) ∧
  (evaluateReverse exampleTape (positionAfter (examplePrefix ++ exampleRange))
                   (positionAfter examplePrefix) [0; 1; 0; 0; 1; 0]%Z ≫=
     evaluateReverse exampleTape (positionAfter examplePrefix) (positionAfter [])
   = evaluateReverse exampleTape (positionAfter (examplePrefix ++ exampleRange))
                     (positionAfter []) [0; 1; 0; 0; 1; 0]%Z).
Proof.
  split; [split; [exact examplePrefix_wellRecorded|exact exampleRange_wellRecorded]|].
  exact (range_composable [] [] examplePrefix exampleRange exampleSuffix
           [0; 1; 0; 0; 1; 0]%Z
           examplePrefix_wellRecorded exampleRange_wellRecorded).
Defined.

Example erase_example :
  erase exampleTape (positionAfter examplePrefix) (positionAfter (examplePrefix ++ exampleRange)) =
  Some (mkTape [(3, 2); (5, 1); (0, 255)] [(3%Z, 1); (2%Z, 2); (5%Z, 4)] [6] [Byte.x00] [] []).
Proof. reflexivity. Qed.

Lemma erase_as_never_recorded_witness :
  Forall wellRecorded exampleSuffix ∧
  ∃ t', erase exampleTape (positionAfter examplePrefix)
              (positionAfter (examplePrefix ++ exampleRange)) = Some t' ∧
        pointers t' = pointers (recording (Gradient:=Z) [] (examplePrefix ++ exampleSuffix)).
Proof.
  split; [exact exampleSuffix_wellRecorded|].
  destruct (erase_as_never_recorded [] examplePrefix exampleRange exampleSuffix
              exampleSuffix_wellRecorded) as (scratch & t' & _ & _ & _ & Herase & Ht' & _).
  exists t'. split; [exact Herase|exact Ht'].
Defined.

Lemma append_copies_range_witness :
  Forall wellRecorded exampleRange ∧
  append newTape exampleTape (positionAfter examplePrefix)
         (positionAfter (examplePrefix ++ exampleRange)) =
  Some (mkTape [(0, 255); (4, 2)] [(1%Z, 3); (1%Z, 1)] [9] [Byte.x02] [Byte.x07; Byte.x08]
               [0%Z]).
Proof.
  split; [exact exampleRange_wellRecorded|].
  exact (proj1 (append_copies_range newTape [] examplePrefix exampleRange exampleSuffix
                  exampleRange_wellRecorded)).
Defined.

Lemma eraseWith_resets_helper_witness :
  (Forall wellRecorded exampleSuffix ∧ Forall wellRecorded exampleRange) ∧
  ∃ t' helper',
    eraseWith exampleTape (positionAfter examplePrefix)
              (positionAfter (examplePrefix ++ exampleRange))
              (recording [7%Z] exampleRange) = Some (t', helper') ∧
    getPosition helper' = getZeroPosition helper' ∧
    statementData helper' = [] ∧ jacobianData helper' = [] ∧
    lowLevelFunctionData helper' = [] ∧
    fixedSizeData helper' = [] ∧ dynamicSizeData helper' = [].
Proof.
  split; [split; [exact exampleSuffix_wellRecorded|exact exampleRange_wellRecorded]|].
  exact (eraseWith_resets_helper [] examplePrefix exampleRange exampleSuffix [7%Z] exampleRange
           exampleSuffix_wellRecorded exampleRange_wellRecorded).
Defined.

Example clearAdjoints_example :
  adjoints (clearAdjoints (withAdjoints exampleTape [1; 2; 3; 4; 5]%Z)
                          (positionAfter (examplePrefix ++ exampleRange ++ exampleSuffix))
                          (positionAfter examplePrefix)) = [0; 2; 3; 4; 0]%Z.
Proof. reflexivity. Qed.

Lemma gradient_access_default_bounds_checking_witness :
  (0 < length (adjoints (withAdjoints exampleTape [6; 5]%Z)) ∧
   length (adjoints (withAdjoints exampleTape [6; 5]%Z)) ≤ 3) ∧
  getGradient 3 BoundsChecking_True (withAdjoints exampleTape [6; 5]%Z) = Some 6%Z ∧
  setGradient 3 8%Z BoundsChecking_True (withAdjoints exampleTape [6; 5]%Z) =
  Some (withAdjoints exampleTape [6; 5; 0; 8]%Z).
Proof.
  assert (0 < length (adjoints (withAdjoints exampleTape [6; 5]%Z))) as Hpos by (simpl; lia).
  assert (length (adjoints (withAdjoints exampleTape [6; 5]%Z)) ≤ 3) as Hout by (simpl; lia).
  split; [split; [exact Hpos|exact Hout]|].
  destruct (gradient_access_default_bounds_checking
              (withAdjoints exampleTape [6; 5]%Z) 3 8%Z Hpos Hout)
    as (_ & (dummy & Hdummy & Hget) & (resized & t' & _ & Hset & _)).
  split.
  - rewrite Hget. rewrite <- Hdummy. reflexivity.
  - reflexivity.
Defined.

Example JacobianReuseTape_linear :
  JacobianReuseTape (Real:=Z) (Gradient:=Z) (mkIndexManager true) =
  CompileError "This class requires an index manager with a reuse scheme.".
Proof. reflexivity. Qed.

Example JacobianReuseTape_reuse :
  JacobianReuseTape (Real:=Z) (Gradient:=Z) (mkIndexManager false) = Instantiated newTape.
Proof. reflexivity. Qed.

End Examples.

(** * Further properties of the tape *)

Lemma iterate_invariant {A : Type} (body : A → option A) (P : A → Prop) :
  (∀ st st', P st → body st = Some st' → P st') →
  ∀ n st st', P st → iterate body n st = Some st' → P st'.
Proof.
  intros Hbody. induction n as [|n IH]; intros st st' HP Hrun; simpl in Hrun.
  - by injection Hrun as <-.
  - destruct (body st) as [st1|] eqn:Hstep; simpl in Hrun; [|done].
    eapply IH; [|done]. by eapply Hbody.
Qed.

Lemma foldM_defined {A Op : Type} (unit : A → Op → option A)
      (inv : A → Prop) (ok : Op → Prop) :
  (∀ a op, inv a →
     (is_Some (unit a op) ↔ ok op) ∧ ∀ a', unit a op = Some a' → inv a') →
  ∀ ops a, inv a →
    (is_Some (foldl (λ acc op, acc ≫= λ a, unit a op) (Some a) ops) ↔ Forall ok ops) ∧
    ∀ a', foldl (λ acc op, acc ≫= λ a, unit a op) (Some a) ops = Some a' → inv a'.
Proof.
  intros Hunit. induction ops as [|op ops IH]; intros a Hinv.
  - simpl. split; [split; [by constructor|by eexists]|]. by intros a' [= <-].
  - rewrite foldM_cons. destruct (Hunit a op Hinv) as [Hdef Hkeep].
    destruct (unit a op) as [a1|] eqn:Hrun; simpl.
    + destruct (IH a1 (Hkeep a1 eq_refl)) as [IHdef IHkeep].
      split; [|done]. rewrite Forall_cons, IHdef.
      split; [intros Hok; split; [apply Hdef; by eexists|done]|by intros [_ Hok]].
    + split; [|done]. rewrite Forall_cons.
      split; [by intros [? ?]|]. intros [Hok _]. by apply Hdef in Hok.
Qed.

Section TapeProperties.
Context {Real Gradient : Type}.
Context `{!TapeTypes Real Gradient, !Config, !LowLevelFunctionTable Gradient}.

Local Abbreviation Tape := (Tape Real Gradient).
Local Abbreviation Recorded := (Recorded Real).
Local Abbreviation DataPointers := (DataPointers Real).

Implicit Types (t dst : Tape) (op : Recorded) (ops : list Recorded)
         (c : Position) (p : DataPointers) (v : list Gradient)
         (args : list (Real * Identifier)).

(** ** The size of the vector *)

Lemma incrementAdjoints_length n : ∀ v a pos rhsJac rhsIds v' pos',
  incrementAdjoints v a n pos rhsJac rhsIds = Some (v', pos') → length v' = length v.
Proof.
  induction n as [|n IH]; intros v a pos rhsJac rhsIds v' pos' Hrun; simpl in Hrun.
  - by injection Hrun as <- _.
  - destruct pos as [|pos]; [done|].
    destruct (rhsJac !! pos) as [jac|]; simpl in Hrun; [|done].
    destruct (rhsIds !! pos) as [id|]; simpl in Hrun; [|done].
    destruct (v !! id) as [argAdj|]; simpl in Hrun; [|done].
    apply IH in Hrun. by rewrite length_insert in Hrun.
Qed.

Lemma evaluateForwardStep_length p v c v' c' :
  callbacksKeepSize →
  evaluateForwardStep p (v, c) = Some (v', c') → length v' = length v.
Proof.
  intros Hkeep. unfold evaluateForwardStep. intros Hstep.
  destruct (numberOfJacobians p !! posStmt c) as [argsSize|]; simpl in Hstep; [|done].
  destruct (decide (StatementLowLevelFunctionTag = argsSize)).
  - unfold callLowLevelFunction_Forward in Hstep.
    destruct (tokenPtr p !! _) as [token|]; simpl in Hstep; [|done].
    destruct (readBytes (fixedDataPtr p) _ _) as [fixedBytes|]; simpl in Hstep; [|done].
    destruct (readBytes (dynamicDataPtr p) _ _) as [dynamicBytes|]; simpl in Hstep; [|done].
    injection Hstep as <- _. apply Hkeep.
  - destruct (incrementTangents _ _ _ _ _ _) as [[lhsAdjoint curJacobianPos]|];
      simpl in Hstep; [|done].
    destruct (lhsIdentifiers p !! _) as [lhsIdentifier|]; simpl in Hstep; [|done].
    destruct (decide (lhsIdentifier < length v)); simpl in Hstep; [|done].
    injection Hstep as <- _. apply length_insert.
Qed.

Lemma evaluateReverseStep_length p v c v' c' :
  callbacksKeepSize →
  evaluateReverseStep p (v, c) = Some (v', c') → length v' = length v.
Proof.
  intros Hkeep. unfold evaluateReverseStep. intros Hstep.
  destruct (posStmt c) as [|stmtPos]; [done|]. simpl in Hstep.
  destruct (numberOfJacobians p !! stmtPos) as [argsSize|]; simpl in Hstep; [|done].
  destruct (decide (StatementLowLevelFunctionTag = argsSize)).
  - unfold callLowLevelFunction_Reverse in Hstep. simpl in Hstep.
    destruct (posLLFTokenData c) as [|tokenPos]; [done|].
    destruct (tokenPtr p !! _) as [token|]; simpl in Hstep; [|done].
    destruct (decide (llfFixedSize token ≤ posFixedData c)); [|done].
    destruct (readBytes (fixedDataPtr p) _ _) as [fixedBytes|]; simpl in Hstep; [|done].
    destruct (decide (_ ≤ posDynamicData c)); [|done].
    destruct (readBytes (dynamicDataPtr p) _ _) as [dynamicBytes|]; simpl in Hstep; [|done].
    injection Hstep as <- _. apply Hkeep.
  - destruct (lhsIdentifiers p !! _) as [lhsIdentifier|]; simpl in Hstep; [|done].
    destruct (v !! lhsIdentifier) as [lhsAdjoint|]; simpl in Hstep; [|done].
    destruct (incrementAdjoints _ _ _ _ _ _) as [[v1 curJacobianPos]|] eqn:Hinc;
      simpl in Hstep; [|done].
    injection Hstep as <- _.
    apply incrementAdjoints_length in Hinc. by rewrite length_insert in Hinc.
Qed.

(** X1.  Whatever the streams hold: if the callbacks of the low level
    functions keep the size of the vector, a forward or reverse evaluation
    that runs through hands back a vector of the size it was given. *)
Theorem evaluate_keeps_size t (start end_ : Position) v v' :
  callbacksKeepSize →
  evaluateForward t start end_ v = Some v' ∨ evaluateReverse t start end_ v = Some v' →
  length v' = length v.
Proof.
  intros Hkeep [Hrun|Hrun].
  - unfold evaluateForward, internalEvaluateForward_EvalStatements in Hrun.
    destruct (iterate _ _ _) as [[v1 c1]|] eqn:Hiter; simpl in Hrun; [|done].
    injection Hrun as ->.
    apply (iterate_invariant _ (λ st, length st.1 = length v)) in Hiter; [done| |done].
    intros [v2 c2] [v3 c3] Hlen Hstep. simpl in Hlen |- *.
    rewrite <- Hlen. exact (evaluateForwardStep_length _ _ _ _ _ Hkeep Hstep).
  - unfold evaluateReverse, internalEvaluateReverse_EvalStatements in Hrun.
    destruct (iterate _ _ _) as [[v1 c1]|] eqn:Hiter; simpl in Hrun; [|done].
    injection Hrun as ->.
    apply (iterate_invariant _ (λ st, length st.1 = length v)) in Hiter; [done| |done].
    intros [v2 c2] [v3 c3] Hlen Hstep. simpl in Hlen |- *.
    rewrite <- Hlen. exact (evaluateReverseStep_length _ _ _ _ _ Hkeep Hstep).
Qed.

(** ** When replay runs through *)

Lemma tangentSum_defined v acc args :
  is_Some (tangentSum v acc args) ↔ Forall (λ arg, arg.2 < length v) args.
Proof.
  revert acc. induction args as [|[partial argId] args IH]; intros acc; simpl.
  - split; [by constructor|by eexists].
  - rewrite Forall_cons. simpl. destruct (v !! argId) as [argTangent|] eqn:Hlook; simpl.
    + rewrite IH. apply lookup_lt_Some in Hlook.
      split; [by intros ?; split|by intros [_ ?]].
    + apply lookup_ge_None in Hlook. split; [by intros [? ?]|]. intros [Hlt _]. lia.
Qed.

Lemma distribute_defined args : ∀ v a,
  (is_Some (distribute v a args) ↔ Forall (λ arg, arg.2 < length v) args) ∧
  ∀ v', distribute v a args = Some v' → length v' = length v.
Proof.
  induction args as [|[partial argId] args IH]; intros v a; simpl.
  - split; [split; [by constructor|by eexists]|]. by intros v' [= <-].
  - rewrite Forall_cons. simpl. destruct (v !! argId) as [argAdjoint|] eqn:Hlook; simpl.
    + destruct (IH (<[argId := Gradient_add argAdjoint (Jacobian_mul partial a)]> v) a)
        as [IHdef IHlen].
      rewrite length_insert in IHdef, IHlen.
      apply lookup_lt_Some in Hlook. split; [|done]. rewrite IHdef.
      split; [by intros ?; split|by intros [_ ?]].
    + apply lookup_ge_None in Hlook. split; [|done].
      split; [by intros [? ?]|]. intros [Hlt _]. lia.
Qed.

Lemma forwardUnit_defined v op :
  callbacksKeepSize →
  (is_Some (forwardUnit v op) ↔ identifiersBelow (length v) op) ∧
  ∀ v', forwardUnit v op = Some v' → length v' = length v.
Proof.
  intros Hkeep. destruct op as [lhs args|token fixedBytes dynamicBytes]; simpl.
  - pose proof (tangentSum_defined v Gradient_zero args) as Hsum.
    destruct (tangentSum v Gradient_zero args) as [targetTangent|]; simpl.
    + destruct (decide (lhs < length v)) as [Hlt|Hge].
      * split; [|intros v' [= <-]; apply length_insert].
        split; [intros _; split; [done|apply Hsum; by eexists]|by eexists].
      * split; [|done]. split; [by intros [? ?]|by intros [? _]].
    + split; [|done]. split; [by intros [? ?]|].
      intros [_ Hargs]. by apply Hsum in Hargs.
  - split; [split; [done|by eexists]|]. intros v' [= <-]. apply Hkeep.
Qed.

Lemma reverseUnit_defined v op :
  callbacksKeepSize →
  (is_Some (reverseUnit v op) ↔ identifiersBelow (length v) op) ∧
  ∀ v', reverseUnit v op = Some v' → length v' = length v.
Proof.
  intros Hkeep. destruct op as [lhs args|token fixedBytes dynamicBytes]; simpl.
  - destruct (v !! lhs) as [targetAdjoint|] eqn:Hlook; simpl.
    + destruct (distribute_defined (reverse args) (<[lhs := Gradient_zero]> v) targetAdjoint)
        as [Hdef Hlen].
      rewrite length_insert in Hdef, Hlen. rewrite Forall_reverse in Hdef.
      apply lookup_lt_Some in Hlook. split; [|done]. rewrite Hdef.
      split; [by intros ?; split|by intros [_ ?]].
    + apply lookup_ge_None in Hlook. split; [|done].
      split; [by intros [? ?]|]. intros [Hlt _]. lia.
  - split; [split; [done|by eexists]|]. intros v' [= <-]. apply Hkeep.
Qed.

(** X2.  Replay of a recorded range, in either direction, runs through
    exactly when every identifier of the statements of the range, target or
    argument, has a slot in the vector (the callbacks of the low level
    functions keeping its size). *)
Theorem evaluate_defined_iff v0 ops1 ops2 ops3 v :
  Forall wellRecorded ops2 → callbacksKeepSize →
  let t := recording v0 (ops1 ++ ops2 ++ ops3) in
  let p1 := getPosition (recording v0 ops1) in
  let p2 := getPosition (recording v0 (ops1 ++ ops2)) in
  (is_Some (evaluateForward t p1 p2 v) ↔ Forall (identifiersBelow (length v)) ops2) ∧
  (is_Some (evaluateReverse t p2 p1 v) ↔ Forall (identifiersBelow (length v)) ops2).
Proof.
  intros Hwell Hkeep t p1 p2. unfold t, p1, p2.
  rewrite evaluateForward_recording, evaluateReverse_recording by done.
  split.
  - apply (foldM_defined forwardUnit (λ a, length a = length v)
             (identifiersBelow (length v))); [|done].
    intros a op Ha. rewrite <- Ha. destruct (forwardUnit_defined a op Hkeep) as [Hdef Hlen].
    split; [done|]. intros a' Hrun. by rewrite (Hlen a' Hrun).
  - rewrite <- (Forall_reverse _ ops2).
    apply (foldM_defined reverseUnit (λ a, length a = length v)
             (identifiersBelow (length v))); [|done].
    intros a op Ha. rewrite <- Ha. destruct (reverseUnit_defined a op Hkeep) as [Hdef Hlen].
    split; [done|]. intros a' Hrun. by rewrite (Hlen a' Hrun).
Qed.

(** ** The cursors behind a range *)

(** X3.  Over a recorded range, each of the three handlers leaves all five
    cursors where the range ends: the forward evaluation and the append at
    the position taken behind the range, the reverse evaluation at the
    position taken in front of it. *)
Theorem handlers_stop_at_the_range_end v0 ops1 ops2 ops3 :
  Forall wellRecorded ops2 →
  let p := pointers (recording v0 (ops1 ++ ops2 ++ ops3)) in
  let p1 := getPosition (recording v0 ops1) in
  let p2 := getPosition (recording v0 (ops1 ++ ops2)) in
  (∀ v v' c', internalEvaluateForward_EvalStatements p v p1 (posStmt p2) = Some (v', c') →
              c' = p2) ∧
  (∀ v v' c', internalEvaluateReverse_EvalStatements p v p2 (posStmt p1) = Some (v', c') →
              c' = p1) ∧
  (∀ dst, ∃ dst', internalAppend p dst p1 (posStmt p2) = Some (dst', p2)).
Proof.
  intros Hwell p p1 p2. unfold p, p1, p2.
  unfold internalEvaluateForward_EvalStatements, internalEvaluateReverse_EvalStatements,
    internalAppend.
  rewrite !posStmt_recording, length_app, Nat.add_sub'.
  split; [|split].
  - intros v v' c'.
    rewrite (iterate_forward_units _ forwardUnit v0); [|apply @evaluateForwardStep_unit|done].
    destruct (foldl _ _ _); simpl; [|done]. by intros [= _ <-].
  - intros v v' c'. rewrite iterate_reverse_units by done.
    destruct (replayReverse _ _); simpl; [|done]. by intros [= _ <-].
  - intros dst. exists (record dst ops2).
    rewrite (iterate_forward_units _ (λ dst' op, Some (recordOne dst' op)) v0); [| |done].
    + by rewrite record_foldM.
    + intros q c op a Hat Hop. by rewrite (internalAppendStep_unit q c op a Hat Hop).
Qed.

(** ** More on editing *)

Lemma evaluateForward_tail v0 ops1 ops2 v :
  Forall wellRecorded ops2 →
  evaluateForward (recording v0 (ops1 ++ ops2)) (getPosition (recording v0 ops1))
                  (getPosition (recording v0 (ops1 ++ ops2))) v = replayForward ops2 v.
Proof.
  intros Hwell. pose proof (evaluateForward_recording v0 ops1 ops2 [] v Hwell) as Heval.
  by rewrite app_nil_r in Heval.
Qed.

Lemma evaluateReverse_tail v0 ops1 ops2 v :
  Forall wellRecorded ops2 →
  evaluateReverse (recording v0 (ops1 ++ ops2)) (getPosition (recording v0 (ops1 ++ ops2)))
                  (getPosition (recording v0 ops1)) v = replayReverse ops2 v.
Proof.
  intros Hwell. pose proof (evaluateReverse_recording v0 ops1 ops2 [] v Hwell) as Heval.
  by rewrite app_nil_r in Heval.
Qed.

(** X4.  Appending two adjacent recorded ranges of a source tape one after
    the other gives what appending the joined range gives. *)
Theorem append_adjacent_ranges dst v0 ops1 ops2 ops3 ops4 :
  Forall wellRecorded ops2 → Forall wellRecorded ops3 →
  let src := recording v0 (ops1 ++ ops2 ++ ops3 ++ ops4) in
  let p1 := getPosition (recording v0 ops1) in
  let p2 := getPosition (recording v0 (ops1 ++ ops2)) in
  let p3 := getPosition (recording v0 (ops1 ++ ops2 ++ ops3)) in
  append dst src p1 p2 ≫= (λ dst', append dst' src p2 p3) = append dst src p1 p3.
Proof.
  intros Hwell2 Hwell3 src p1 p2 p3. unfold src, p1, p2, p3.
  rewrite (append_recording dst v0 ops1 ops2 (ops3 ++ ops4)) by done. simpl.
  rewrite (app_assoc ops1 ops2 (ops3 ++ ops4)), (app_assoc ops1 ops2 ops3).
  rewrite (append_recording _ v0 (ops1 ++ ops2) ops3 ops4) by done.
  rewrite <- !(app_assoc ops1 ops2), (app_assoc ops2 ops3 ops4).
  rewrite (app_assoc ops1 (ops2 ++ ops3) ops4).
  rewrite <- (app_assoc ops1 (ops2 ++ ops3) ops4).
  rewrite (append_recording dst v0 ops1 (ops2 ++ ops3) ops4) by (by apply Forall_app).
  by rewrite record_app.
Qed.

(** X5.  A recorded range that was appended to another tape replays there,
    in both directions, as it replays on the source tape. *)
Theorem appended_range_replays_alike vD opsD v0 ops1 ops2 ops3 v :
  Forall wellRecorded ops2 →
  let src := recording v0 (ops1 ++ ops2 ++ ops3) in
  let dst := recording vD opsD in
  let p1 := getPosition (recording v0 ops1) in
  let p2 := getPosition (recording v0 (ops1 ++ ops2)) in
  ∃ dst', append dst src p1 p2 = Some dst' ∧
          evaluateForward dst' (getPosition dst) (getPosition dst') v =
          evaluateForward src p1 p2 v ∧
          evaluateReverse dst' (getPosition dst') (getPosition dst) v =
          evaluateReverse src p2 p1 v.
Proof.
  intros Hwell src dst p1 p2. exists (recording vD (opsD ++ ops2)).
  unfold src, dst, p1, p2. split; [|split].
  - rewrite append_recording by done. by rewrite record_recording.
  - by rewrite evaluateForward_tail, evaluateForward_recording.
  - by rewrite evaluateReverse_tail, evaluateReverse_recording.
Qed.

(** X6.  [erase(start, end, emptyTape)] with a helper tape that is not empty:
    the recording the helper held is inserted where the erased range
    was. *)
Theorem eraseWith_used_helper v ops1 ops2 ops3 vH opsH :
  Forall wellRecorded ops3 → Forall wellRecorded opsH →
  ∃ t' helper',
    eraseWith (recording v (ops1 ++ ops2 ++ ops3))
              (getPosition (recording v ops1))
              (getPosition (recording v (ops1 ++ ops2)))
              (recording vH opsH) = Some (t', helper') ∧
    pointers t' = pointers (recording v (ops1 ++ opsH ++ ops3)) ∧
    getPosition t' = getPosition (recording v (ops1 ++ opsH ++ ops3)).
Proof.
  intros Hwell3 HwellH.
  exists (recording v (ops1 ++ opsH ++ ops3)), (recording vH []).
  split; [by apply eraseWith_recording|done].
Qed.

(** ** More on [clearAdjoints] *)

Lemma clearAdjoints_adjoints t (start end_ : Position) :
  adjoints (clearAdjoints t start end_) =
  foldl (λ adj stmt, clearFunc (length (adjoints t)) adj stmt.1 stmt.2) (adjoints t)
        (reverse (take (posStmt start - posStmt end_) (drop (posStmt end_) (statementData t)))).
Proof. done. Qed.

Lemma clearAdjoints_length t (start end_ : Position) :
  length (adjoints (clearAdjoints t start end_)) = length (adjoints t).
Proof. rewrite clearAdjoints_adjoints. by apply clearFunc_fold. Qed.

(** X7.  Clearing the adjoints of two adjacent ranges, the later one first,
    gives what clearing the adjoints of the joined range gives. *)
Theorem clearAdjoints_adjacent_ranges t (p1 p2 p3 : Position) :
  posStmt p1 ≤ posStmt p2 → posStmt p2 ≤ posStmt p3 →
  clearAdjoints (clearAdjoints t p3 p2) p2 p1 = clearAdjoints t p3 p1.
Proof.
  intros H12 H23.
  assert (adjoints (clearAdjoints (clearAdjoints t p3 p2) p2 p1) =
          adjoints (clearAdjoints t p3 p1)) as Hadj.
  { rewrite (clearAdjoints_adjoints (clearAdjoints t p3 p2)), clearAdjoints_length.
    rewrite (clearAdjoints_adjoints t p3 p2), (clearAdjoints_adjoints t p3 p1).
    change (statementData (clearAdjoints t p3 p2)) with (statementData t).
    rewrite <- foldl_app, <- reverse_app. do 2 f_equal.
    replace (posStmt p3 - posStmt p1) with ((posStmt p2 - posStmt p1) + (posStmt p3 - posStmt p2))
      by lia.
    rewrite <- take_take_drop, drop_drop.
    by replace (posStmt p1 + (posStmt p2 - posStmt p1)) with (posStmt p2) by lia. }
  unfold clearAdjoints in *. simpl in *. by rewrite Hadj.
Qed.

(** X8.  Clearing the adjoints of a range twice gives what clearing them once
    gives. *)
Theorem clearAdjoints_idempotent t (start end_ : Position) :
  clearAdjoints (clearAdjoints t start end_) start end_ = clearAdjoints t start end_.
Proof.
  assert (adjoints (clearAdjoints (clearAdjoints t start end_) start end_) =
          adjoints (clearAdjoints t start end_)) as Hadj.
  { apply list_eq. intros id.
    rewrite (clearAdjoints_adjoints (clearAdjoints t start end_)), clearAdjoints_length.
    change (statementData (clearAdjoints t start end_)) with (statementData t).
    destruct (clearFunc_fold (length (adjoints t))
                (reverse (take (posStmt start - posStmt end_)
                               (drop (posStmt end_) (statementData t))))
                (adjoints (clearAdjoints t start end_)) (clearAdjoints_length t start end_))
      as [_ ->].
    destruct (decide _) as [Hin|]; [|done].
    rewrite clearAdjoints_adjoints.
    destruct (clearFunc_fold (length (adjoints t))
                (reverse (take (posStmt start - posStmt end_)
                               (drop (posStmt end_) (statementData t))))
                (adjoints t) eq_refl) as [_ ->].
    by rewrite decide_True. }
  unfold clearAdjoints in *. simpl in *. by rewrite Hadj.
Qed.

(** ** What [append] does to the destination, whatever the source holds *)

Lemma announcedJacobians_app (l1 l2 : list (Identifier * ArgumentSize)) :
  announcedJacobians (l1 ++ l2) = announcedJacobians l1 + announcedJacobians l2.
Proof.
  unfold announcedJacobians. induction l1 as [|stmt l1 IH]; simpl; [done|].
  rewrite IH. lia.
Qed.

Lemma announcedTokens_app (l1 l2 : list (Identifier * ArgumentSize)) :
  announcedTokens (l1 ++ l2) = announcedTokens l1 + announcedTokens l2.
Proof.
  unfold announcedTokens. induction l1 as [|stmt l1 IH]; simpl; [done|].
  rewrite IH. lia.
Qed.

Lemma extends_refl dst : extends dst dst 0.
Proof.
  exists [], [], [], [], []. rewrite !app_nil_r. by destruct dst.
Qed.

Lemma extends_trans dst1 dst2 dst3 n m :
  extends dst1 dst2 n → extends dst2 dst3 m → extends dst1 dst3 (n + m).
Proof.
  intros (s1 & j1 & k1 & f1 & d1 & -> & Hs1 & Hj1 & Hk1)
         (s2 & j2 & k2 & f2 & d2 & -> & Hs2 & Hj2 & Hk2). simpl.
  exists (s1 ++ s2), (j1 ++ j2), (k1 ++ k2), (f1 ++ f2), (d1 ++ d2).
  rewrite !app_assoc, !length_app, announcedJacobians_app, announcedTokens_app.
  repeat split; lia.
Qed.

Lemma pushJacobians_adds p n : ∀ pos dst dst' pos',
  pushJacobians p n pos dst = Some (dst', pos') →
  ∃ jacobians, length jacobians = n ∧
    dst' = mkTape (statementData dst) (jacobianData dst ++ jacobians)
                  (lowLevelFunctionData dst) (fixedSizeData dst) (dynamicSizeData dst)
                  (adjoints dst).
Proof.
  induction n as [|n IH]; intros pos dst dst' pos' Hrun; simpl in Hrun.
  - injection Hrun as <- _. exists []. rewrite app_nil_r. by destruct dst.
  - destruct (rhsJacobians p !! pos) as [jac|]; simpl in Hrun; [|done].
    destruct (rhsIdentifiers p !! pos) as [id|]; simpl in Hrun; [|done].
    apply IH in Hrun as (jacobians & Hlen & ->). simpl.
    exists ((jac, id) :: jacobians). split; [simpl; lia|].
    by rewrite <- app_assoc.
Qed.

Lemma writeBytes_reserved_prefix (data src written : list Byte.byte) n :
  writeBytes (data ++ replicate n Byte.x00) (length data) src n = Some written →
  ∃ bytes, written = data ++ bytes.
Proof.
  unfold writeBytes. destruct (decide _) as [_|]; [|done]. intros [= <-].
  rewrite take_app_length. by eexists.
Qed.

Lemma internalAppendStep_extends p dst c dst' c' :
  internalAppendStep p (dst, c) = Some (dst', c') → extends dst dst' 1.
Proof.
  unfold internalAppendStep. intros Hstep.
  destruct (numberOfJacobians p !! posStmt c) as [argsSize|]; simpl in Hstep; [|done].
  destruct (decide (StatementLowLevelFunctionTag = argsSize)) as [Htag|Htag].
  - unfold callLowLevelFunction_Count in Hstep.
    destruct (tokenPtr p !! _) as [token|]; simpl in Hstep; [|done].
    destruct (readBytes (fixedDataPtr p) _ _) as [fixedBytes|]; simpl in Hstep; [|done].
    destruct (readBytes (dynamicDataPtr p) _ _) as [dynamicBytes|]; simpl in Hstep; [|done].
    destruct (readBytes (fixedDataPtr p) _ _) as [fixedBytes'|]; simpl in Hstep; [|done].
    destruct (writeBytes (fixedSizeData dst ++ _) _ _ _) as [dstFixed|] eqn:Hfixed;
      simpl in Hstep; [|done].
    destruct (readBytes (dynamicDataPtr p) _ _) as [dynamicBytes'|]; simpl in Hstep; [|done].
    destruct (writeBytes (dynamicSizeData dst ++ _) _ _ _) as [dstDynamic|] eqn:Hdynamic;
      simpl in Hstep; [|done].
    injection Hstep as <- _.
    apply writeBytes_reserved_prefix in Hfixed as [newFixed ->].
    apply writeBytes_reserved_prefix in Hdynamic as [newDynamic ->].
    exists [(0, StatementLowLevelFunctionTag)], [], [token], newFixed, newDynamic.
    rewrite app_nil_r. unfold announcedJacobians, announcedTokens. simpl.
    rewrite !decide_True by done. done.
  - destruct (lhsIdentifiers p !! _) as [lhsIdentifier|]; simpl in Hstep; [|done].
    destruct (pushJacobians _ _ _ _) as [[dst2 curJacobianPos]|] eqn:Hpush;
      simpl in Hstep; [|done].
    injection Hstep as <- _.
    apply pushJacobians_adds in Hpush as (jacobians & Hlen & ->). simpl.
    exists [(lhsIdentifier, argsSize)], jacobians, [], [], [].
    rewrite !app_nil_r. unfold announcedJacobians, announcedTokens. simpl.
    rewrite !decide_False by done. repeat split; lia.
Qed.

Lemma internalAppend_extends p n : ∀ dst c dst' c',
  iterate (internalAppendStep p) n (dst, c) = Some (dst', c') → extends dst dst' n.
Proof.
  induction n as [|n IH]; intros dst c dst' c' Hrun.
  - injection Hrun as <- _. apply extends_refl.
  - rewrite iterate_S in Hrun.
    destruct (internalAppendStep p (dst, c)) as [[dst1 c1]|] eqn:Hstep; simpl in Hrun; [|done].
    apply internalAppendStep_extends in Hstep. apply IH in Hrun.
    apply (extends_trans _ _ _ 1 n Hstep Hrun).
Qed.

(** X15.  Whatever the two tapes hold: an [append] that runs through changes
    nothing of what the destination held.  Its adjoints are as they were,
    every stream keeps its old content as a prefix, and the statement stream
    has grown by the number of statement entries between the two
    positions. *)
Theorem append_only_adds dst src (start end_ : Position) dst' :
  append dst src start end_ = Some dst' →
  adjoints dst' = adjoints dst ∧
  statementData dst `prefix_of` statementData dst' ∧
  jacobianData dst `prefix_of` jacobianData dst' ∧
  lowLevelFunctionData dst `prefix_of` lowLevelFunctionData dst' ∧
  fixedSizeData dst `prefix_of` fixedSizeData dst' ∧
  dynamicSizeData dst `prefix_of` dynamicSizeData dst' ∧
  length (statementData dst') = length (statementData dst) + (posStmt end_ - posStmt start).
Proof.
  unfold append, internalAppend. intros Hrun.
  destruct (iterate _ _ _) as [[dst1 c1]|] eqn:Hiter; simpl in Hrun; [|done].
  injection Hrun as ->.
  apply internalAppend_extends in Hiter
    as (stmts & jacobians & tokens & fixedBytes & dynamicBytes & -> & Hn & _ & _).
  simpl. rewrite length_app, Hn.
  repeat split; by apply prefix_app_r.
Qed.

(** X16.  Whatever the source holds: if the Jacobian stream and the token
    stream of the destination hold as many entries as its statement entries
    announce, they still do after an [append] that runs through. *)
Theorem append_keeps_counts dst src (start end_ : Position) dst' :
  countsAgree dst →
  append dst src start end_ = Some dst' →
  countsAgree dst'.
Proof.
  unfold append, internalAppend. intros [Hjac Htok] Hrun.
  destruct (iterate _ _ _) as [[dst1 c1]|] eqn:Hiter; simpl in Hrun; [|done].
  injection Hrun as ->.
  apply internalAppend_extends in Hiter
    as (stmts & jacobians & tokens & fixedBytes & dynamicBytes & -> & _ & Hj & Hk).
  unfold countsAgree. simpl.
  rewrite !length_app, announcedJacobians_app, announcedTokens_app. lia.
Qed.


End TapeProperties.


(** ** Reverse replay is the transpose of forward replay *)

Section Transpose.
#[local] Existing Instance TapeTypes_Z.
Context `{!Config, !LowLevelFunctionTable Z}.

Implicit Types (x y : list Z) (args : list (Z * Identifier)).

Lemma dot_insert_r y : ∀ x i xi yi s,
  x !! i = Some xi → y !! i = Some yi →
  dot y (<[i := s]> x) = (dot y x + yi * (s - xi))%Z.
Proof.
  induction y as [|b y IH]; intros x i xi yi s Hx Hy; [done|].
  destruct x as [|a x]; [done|].
  destruct i as [|i]; simpl in *.
  - injection Hx as ->. injection Hy as ->. lia.
  - rewrite (IH x i xi yi s Hx Hy). lia.
Qed.

Lemma dot_insert_l y : ∀ x i xi yi s,
  x !! i = Some xi → y !! i = Some yi →
  dot (<[i := s]> y) x = (dot y x + (s - yi) * xi)%Z.
Proof.
  induction y as [|b y IH]; intros x i xi yi s Hx Hy; [done|].
  destruct x as [|a x]; [done|].
  destruct i as [|i]; simpl in *.
  - injection Hx as ->. injection Hy as ->. lia.
  - rewrite (IH x i xi yi s Hx Hy). lia.
Qed.

Lemma weightedSum_snoc x args arg :
  weightedSum x (args ++ [arg]) = (weightedSum x args + arg.1 * (x !!! arg.2))%Z.
Proof.
  unfold weightedSum. induction args as [|arg' args IH]; simpl; [lia|].
  rewrite IH. lia.
Qed.

Lemma weightedSum_reverse x args : weightedSum x (reverse args) = weightedSum x args.
Proof.
  induction args as [|arg args IH]; [done|].
  rewrite reverse_cons, weightedSum_snoc, IH. unfold weightedSum. simpl. lia.
Qed.

Lemma tangentSum_weightedSum x args : ∀ acc s,
  tangentSum x acc args = Some s → s = (acc + weightedSum x args)%Z.
Proof.
  induction args as [|[partial argId] args IH]; intros acc s Hsum; simpl in Hsum.
  - injection Hsum as <-. unfold weightedSum. simpl. lia.
  - destruct (x !! argId) as [argTangent|] eqn:Hlook; simpl in Hsum; [|done].
    apply IH in Hsum. unfold weightedSum in *. simpl.
    rewrite (list_lookup_total_correct _ _ _ Hlook). lia.
Qed.

Lemma distribute_dot x args : ∀ y a y',
  length x = length y →
  distribute y a args = Some y' →
  dot y' x = (dot y x + a * weightedSum x args)%Z.
Proof.
  induction args as [|[partial argId] args IH]; intros y a y' Hlen Hrun; simpl in Hrun.
  - injection Hrun as <-. unfold weightedSum. simpl. lia.
  - destruct (y !! argId) as [argAdjoint|] eqn:Hlook; simpl in Hrun; [|done].
    destruct (lookup_lt_is_Some_2 x argId) as [xi Hxi];
      [rewrite Hlen; by eapply lookup_lt_Some|].
    apply IH in Hrun; [|by rewrite length_insert].
    rewrite Hrun, (dot_insert_l _ _ _ _ _ _ Hxi Hlook).
    unfold weightedSum. simpl. rewrite (list_lookup_total_correct _ _ _ Hxi).
    unfold Gradient_add, Jacobian_mul. simpl. lia.
Qed.

Lemma unit_transpose x y op x' y' :
  length x = length y →
  transposedCallbacks (length x) op →
  forwardUnit x op = Some x' → reverseUnit y op = Some y' →
  dot y x' = dot y' x.
Proof.
  intros Hlen Htr Hfwd Hrev.
  destruct op as [lhs args|token fixedBytes dynamicBytes]; simpl in *.
  - destruct (tangentSum x 0%Z args) as [s|] eqn:Hsum; simpl in Hfwd; [|done].
    destruct (decide (lhs < length x)) as [Hlt|]; [|done].
    injection Hfwd as <-.
    destruct (y !! lhs) as [a|] eqn:Hy; simpl in Hrev; [|done].
    destruct (lookup_lt_is_Some_2 x lhs Hlt) as [xl Hx].
    apply (distribute_dot x) in Hrev; [|by rewrite length_insert].
    rewrite Hrev, weightedSum_reverse.
    rewrite (dot_insert_r _ _ _ _ _ _ Hx Hy), (dot_insert_l _ _ _ _ _ _ Hx Hy).
    apply tangentSum_weightedSum in Hsum. rewrite Hsum. lia.
  - injection Hfwd as <-. injection Hrev as <-. by apply Htr.
Qed.

Lemma replay_transpose ops : ∀ x y x' y',
  callbacksKeepSize →
  length x = length y →
  Forall (transposedCallbacks (length x)) ops →
  replayForward ops x = Some x' → replayReverse ops y = Some y' →
  dot y x' = dot y' x.
Proof.
  induction ops as [|op ops IH]; intros x y x' y' Hkeep Hlen Htr Hfwd Hrev.
  - injection Hfwd as <-. by injection Hrev as <-.
  - apply Forall_cons in Htr as [Hop Htr].
    unfold replayForward, replay in Hfwd. rewrite foldM_cons in Hfwd.
    destruct (forwardUnit x op) as [x1|] eqn:Hfwd1; simpl in Hfwd; [|done].
    change (op :: ops) with ([op] ++ ops) in Hrev.
    rewrite replayReverse_app in Hrev.
    destruct (replayReverse ops y) as [y1|] eqn:Hrev1; simpl in Hrev; [|done].
    unfold replayReverse, replay in Hrev. simpl in Hrev.
    destruct (forwardUnit_defined x op Hkeep) as [_ Hx1].
    pose proof (Hx1 x1 Hfwd1) as Hlen1.
    assert (length y1 = length y) as Hleny.
    { destruct (foldM_defined reverseUnit (λ a, length a = length y)
                  (identifiersBelow (length y))) with (ops := reverse ops) (a := y)
        as [_ Hinv]; [|done|by apply Hinv].
      intros a op' Ha. rewrite <- Ha.
      destruct (reverseUnit_defined a op' Hkeep) as [Hdef Hl].
      split; [done|]. intros a' Hrun. by rewrite (Hl a' Hrun). }
    rewrite (IH x1 y x' y1 Hkeep); [| lia | by rewrite Hlen1 | done | done].
    apply (unit_transpose x y1 op); [lia|done|done|done].
Qed.

(** X9.  With integer arithmetic, reverse replay of a recorded range is the
    transpose of its forward replay: for a tangent vector [x] and an adjoint
    vector [y] of the same size, the pairing of [y] with the forward replay
    of [x] equals the pairing of the reverse replay of [y] with [x] (the
    callbacks of the low level functions of the range being transposes of
    each other and keeping the size). *)
Theorem reverse_replay_is_transpose v0 ops1 ops2 ops3 x y x' y' :
  Forall wellRecorded ops2 →
  callbacksKeepSize →
  Forall (transposedCallbacks (length x)) ops2 →
  length x = length y →
  let t := recording v0 (ops1 ++ ops2 ++ ops3) in
  let p1 := getPosition (recording v0 ops1) in
  let p2 := getPosition (recording v0 (ops1 ++ ops2)) in
  evaluateForward t p1 p2 x = Some x' →
  evaluateReverse t p2 p1 y = Some y' →
  dot y x' = dot y' x.
Proof.
  intros Hwell Hkeep Htr Hlen t p1 p2. unfold t, p1, p2.
  rewrite evaluateForward_recording, evaluateReverse_recording by done.
  by apply replay_transpose.
Qed.

End Transpose.


(** * Properties of the lvalue interface *)

Section LhsExpressionProperties.
Context {Real Gradient : Type}.
Context `{!TapeTypes Real Gradient}.

Local Abbreviation Tape := (Tape Real Gradient).

(** X10.  [setGradient] on an lvalue always runs through, and [getGradient]
    on that lvalue then reads the value that was set; the write changes no
    stream, does not shrink the adjoint vector, and leaves the gradient of
    every other lvalue that had a slot as it was. *)
Theorem setGradient_getGradient (x : LhsExpression Real) (g : Gradient) (t : Tape) :
  ∃ t', LhsExpression_setGradient x g t = Some t' ∧
        LhsExpression_getGradient x t' = Some g ∧
        pointers t' = pointers t ∧
        length (adjoints t) ≤ length (adjoints t') ∧
        ∀ y : LhsExpression Real,
          getIdentifier y ≠ getIdentifier x → getIdentifier y < length (adjoints t) →
          LhsExpression_getGradient y t' = LhsExpression_getGradient y t.
Proof.
  destruct x as [val id].
  unfold LhsExpression_setGradient, LhsExpression_getGradient, LhsExpression_gradient,
    LhsExpression_gradient_const, gradient, gradient_const. simpl.
  destruct (decide (length (adjoints t) ≤ id)) as [Hout|Hin]; simpl.
  - eexists. split; [done|]. simpl.
    rewrite length_insert, resizeAdjointsFor_length by done.
    rewrite decide_False by lia. simpl.
    split; [apply list_lookup_insert_eq; rewrite resizeAdjointsFor_length by done; lia|].
    split; [done|]. split; [lia|].
    intros [valY idY] Hne Hlt. simpl in *.
    rewrite !decide_False by lia. simpl.
    rewrite list_lookup_insert_ne by done. by apply resizeAdjointsFor_lookup.
  - eexists. split; [done|]. simpl.
    rewrite length_insert. rewrite decide_False by done. simpl.
    split; [apply list_lookup_insert_eq; lia|].
    split; [done|]. split; [lia|].
    intros [valY idY] Hne Hlt. simpl in *.
    rewrite !decide_False by lia. simpl.
    by rewrite list_lookup_insert_ne.
Qed.

(** X11.  The slot of identifier 0 is shared: after [setGradient] on an
    lvalue with identifier 0, [getGradient] on any lvalue whose identifier
    has no slot reads the value that was set. *)
Theorem setGradient_zero_identifier_is_read_out_of_bounds
        (z y : LhsExpression Real) (g : Gradient) (t : Tape) :
  0 < length (adjoints t) →
  getIdentifier z = 0 →
  length (adjoints t) ≤ getIdentifier y →
  ∃ t', LhsExpression_setGradient z g t = Some t' ∧
        LhsExpression_getGradient y t' = Some g.
Proof.
  destruct z as [valZ idZ], y as [valY idY]. simpl. intros Hpos -> Hout.
  unfold LhsExpression_setGradient, LhsExpression_getGradient, LhsExpression_gradient,
    LhsExpression_gradient_const, gradient, gradient_const. simpl.
  rewrite decide_False by lia. simpl.
  eexists. split; [done|]. simpl.
  rewrite length_insert. rewrite !decide_True by lia. simpl.
  by apply list_lookup_insert_eq.
Qed.

End LhsExpressionProperties.


(** * Properties of the construction of expressions *)

Section ConstructProperties.
Context {Real PassiveReal BinaryOperation UnaryOperation : Type}.
Context `{!ExpressionOperations Real PassiveReal BinaryOperation UnaryOperation}.

Local Abbreviation ExpressionType := (ExpressionType BinaryOperation UnaryOperation).
Local Abbreviation Expression := (Expression Real BinaryOperation UnaryOperation).

Implicit Types (Rhs : ExpressionType) (e : Expression) (primalVector : list Real)
         (identifiers : list Identifier) (constantData : list PassiveReal).

(** The order of [activeLeaves] is the order of the links. *)
Lemma activeLeaves_forEachLink e :
  (∀ primal identifier, e ≠ StaticContextActiveType primal identifier) →
  activeLeaves e = forEachLink (λ _ child _ acc, acc ++ activeLeaves child) e [].
Proof. destruct e; simpl; [by intros Hne; destruct (Hne primal identifier)|done..]. Qed.

Lemma take_window {A : Type} (l : list A) (p n m : nat) :
  take (n + m) (drop p l) = take n (drop p l) ++ take m (drop (p + n) l).
Proof. by rewrite <- take_take_drop, drop_drop. Qed.

Lemma NumberOfActiveTypeArguments_typeOf e :
  NumberOfActiveTypeArguments (typeOf e) = length (activeLeaves e).
Proof.
  induction e as [| |operation argA IHA argB IHB result|operation arg IH result]; simpl;
    [done|done| |done].
  rewrite length_app. lia.
Qed.

Lemma NumberOfConstantTypeArguments_typeOf e :
  NumberOfConstantTypeArguments (typeOf e) = length (constantLeaves e).
Proof.
  induction e as [| |operation argA IHA argB IHB result|operation arg IH result]; simpl;
    [done|done| |done].
  rewrite length_app. lia.
Qed.

(** X12.  [construct] runs through exactly when the identifiers and the
    constants it is to use exist, as many from the two offsets on as the
    expression type has lvalues and constants, and each of these identifiers
    has a primal value. *)
Theorem construct_defined_iff Rhs :
  ∀ primalValueOffset constantValueOffset primalVector identifiers constantData,
    is_Some (construct Rhs primalValueOffset constantValueOffset
                       primalVector identifiers constantData) ↔
    NumberOfActiveTypeArguments Rhs ≤ length identifiers - primalValueOffset ∧
    NumberOfConstantTypeArguments Rhs ≤ length constantData - constantValueOffset ∧
    Forall (λ identifier, identifier < length primalVector)
           (take (NumberOfActiveTypeArguments Rhs) (drop primalValueOffset identifiers)).
Proof.
  induction Rhs as [| |operation ArgA IHA ArgB IHB|operation Arg IH];
    intros p c primalVector identifiers constantData; simpl.
  - destruct (identifiers !! p) as [identifier|] eqn:Hid; simpl.
    + rewrite (drop_S _ _ _ Hid). simpl. rewrite take_0, Forall_singleton.
      apply lookup_lt_Some in Hid.
      destruct (primalVector !! identifier) as [primal|] eqn:Hprimal; simpl.
      * apply lookup_lt_Some in Hprimal. split; [intros _; repeat split; lia|by eexists].
      * apply lookup_ge_None in Hprimal. split; [by intros [? ?]|]. intros (_ & _ & Hlt). lia.
    + apply lookup_ge_None in Hid. split; [by intros [? ?]|]. intros (Hle & _). lia.
  - destruct (constantData !! c) as [datum|] eqn:Hdatum; simpl.
    + apply lookup_lt_Some in Hdatum.
      split; [intros _; repeat split; [lia..|constructor]|by eexists].
    + apply lookup_ge_None in Hdatum. split; [by intros [? ?]|]. intros (_ & Hle & _). lia.
  - rewrite take_window, Forall_app.
    specialize (IHA p c primalVector identifiers constantData).
    specialize (IHB (p + NumberOfActiveTypeArguments ArgA)
                    (c + NumberOfConstantTypeArguments ArgA)
                    primalVector identifiers constantData).
    destruct (construct ArgA _ _ _ _ _) as [argA|]; simpl.
    + destruct (construct ArgB _ _ _ _ _) as [argB|]; simpl.
      * destruct IHA as [IHA _], IHB as [IHB _].
        destruct IHA as (? & ? & ?); [by eexists|].
        destruct IHB as (? & ? & ?); [by eexists|].
        split; [intros _; repeat split; [lia..|done|done]|by eexists].
      * split; [by intros [? ?]|]. intros (HnA & HnC & _ & HB).
        destruct IHB as [_ IHB]. destruct IHA as [IHA _].
        destruct IHA as (? & ? & ?); [by eexists|].
        assert (is_Some (@None Expression)) as [? ?]; [|done].
        apply IHB. repeat split; [lia..|done].
    + split; [by intros [? ?]|]. intros (HnA & HnC & HA & _).
      destruct IHA as [_ IHA].
      assert (is_Some (@None Expression)) as [? ?]; [|done].
      apply IHA. repeat split; [lia..|done].
  - specialize (IH p c primalVector identifiers constantData).
    destruct (construct Arg _ _ _ _ _) as [arg|]; simpl.
    + destruct IH as [IH _]. split; [intros _; apply IH; by eexists|by eexists].
    + destruct IH as [_ IH]. split; [by intros [? ?]|]. intros Hok.
      by apply IH in Hok.
Qed.


(** X14.  Round trip: for an expression whose nodes store the results of
    their operations, whose lvalues hold the values of the primal vector and
    whose constants are the converted entries of [data], [construct] over the
    identifiers of its lvalues and over [data], each list placed at the
    offset given, builds this very expression. *)
Theorem construct_roundtrip e :
  ∀ before after dataBefore data dataAfter primalVector,
    resultsComputed e →
    Forall (λ leaf, primalVector !! leaf.2 = Some leaf.1) (activeLeaves e) →
    constantLeaves e = fromDataStore <$> data →
    construct (typeOf e) (length before) (length dataBefore) primalVector
              (before ++ (activeLeaves e).*2 ++ after)
              (dataBefore ++ data ++ dataAfter) = Some e.
Proof.
  induction e as [primal identifier|constant|operation argA IHA argB IHB result
                 |operation arg IH result];
    intros before after dataBefore data dataAfter primalVector Hres Hleaves Hconst;
    simpl in *.
  - rewrite Forall_singleton in Hleaves. simpl in Hleaves.
    rewrite list_lookup_middle by done. simpl. by rewrite Hleaves.
  - destruct data as [|datum [|? ?]]; [done| |done].
    injection Hconst as ->. simpl. by rewrite list_lookup_middle.
  - destruct Hres as (HrA & HrB & ->). apply Forall_app in Hleaves as [HlA HlB].
    symmetry in Hconst. apply fmap_app_inv in Hconst as (dataA & dataB & HcA & HcB & ->).
    rewrite fmap_app, <- !app_assoc.
    rewrite (IHA before _ dataBefore dataA _ primalVector HrA HlA HcA). simpl.
    rewrite NumberOfActiveTypeArguments_typeOf, NumberOfConstantTypeArguments_typeOf.
    rewrite HcA, length_fmap.
    rewrite <- (length_fmap snd (activeLeaves argA)), <- !length_app.
    rewrite (app_assoc before), (app_assoc dataBefore).
    by rewrite (IHB (before ++ (activeLeaves argA).*2) after (dataBefore ++ dataA)
                  dataB dataAfter primalVector HrB HlB HcB).
  - destruct Hres as [Hr ->].
    by rewrite (IH before after dataBefore data dataAfter primalVector Hr Hleaves Hconst).
Qed.

End ConstructProperties.


(** * Concrete runs of the further properties *)

Section MoreExamples.
#[local] Existing Instance TapeTypes_Z.
#[local] Existing Instance Config_255.
#[local] Existing Instance LowLevelFunctionTable_example.

Lemma example_callbacksKeepSize : callbacksKeepSize (Gradient:=Z).
Proof. intros token fixedBytes dynamicBytes v. split; apply length_insert. Defined.

Lemma evaluate_keeps_size_witness :
  (callbacksKeepSize (Gradient:=Z) ∧
   (evaluateForward exampleTape (positionAfter [])
                    (positionAfter (examplePrefix ++ exampleRange))
                    [0; 1; 0; 0; 0; 0]%Z = Some [0; 9; 0; 3; 12; 0]%Z ∨
    evaluateReverse exampleTape (positionAfter [])
                    (positionAfter (examplePrefix ++ exampleRange))
                    [0; 1; 0; 0; 0; 0]%Z = Some [0; 9; 0; 3; 12; 0]%Z)) ∧
  length [0; 9; 0; 3; 12; 0]%Z = length [0; 1; 0; 0; 0; 0]%Z.
Proof.
  assert (evaluateForward exampleTape (positionAfter [])
            (positionAfter (examplePrefix ++ exampleRange))
            [0; 1; 0; 0; 0; 0]%Z = Some [0; 9; 0; 3; 12; 0]%Z) as Hrun by reflexivity.
  split; [split; [exact example_callbacksKeepSize|left; exact Hrun]|].
  exact (evaluate_keeps_size exampleTape _ _ _ _ example_callbacksKeepSize (or_introl Hrun)).
Defined.

Lemma evaluate_defined_iff_witness :
  (Forall wellRecorded exampleRange ∧ callbacksKeepSize (Gradient:=Z)) ∧
  (is_Some (evaluateForward exampleTape (positionAfter examplePrefix)
                            (positionAfter (examplePrefix ++ exampleRange)) [0; 1; 0]%Z) ↔
   Forall (identifiersBelow 3) exampleRange) ∧
  (is_Some (evaluateReverse exampleTape (positionAfter (examplePrefix ++ exampleRange))
                            (positionAfter examplePrefix) [0; 1; 0]%Z) ↔
   Forall (identifiersBelow 3) exampleRange).
Proof.
  split; [split; [exact exampleRange_wellRecorded|exact example_callbacksKeepSize]|].
  exact (evaluate_defined_iff [] examplePrefix exampleRange exampleSuffix [0; 1; 0]%Z
           exampleRange_wellRecorded example_callbacksKeepSize).
Defined.

Example evaluateReverse_out_of_bounds :
  evaluateReverse exampleTape (positionAfter (examplePrefix ++ exampleRange))
                  (positionAfter examplePrefix) [0; 1; 0]%Z = None.
Proof. reflexivity. Qed.

Lemma handlers_stop_at_the_range_end_witness :
  Forall wellRecorded exampleRange ∧
  (∀ v v' c',
     internalEvaluateForward_EvalStatements (pointers exampleTape) v
       (positionAfter examplePrefix)
       (posStmt (positionAfter (examplePrefix ++ exampleRange))) = Some (v', c') →
     c' = positionAfter (examplePrefix ++ exampleRange)) ∧
  (∀ v v' c',
     internalEvaluateReverse_EvalStatements (pointers exampleTape) v
       (positionAfter (examplePrefix ++ exampleRange))
       (posStmt (positionAfter examplePrefix)) = Some (v', c') →
     c' = positionAfter examplePrefix) ∧
  (∀ dst, ∃ dst',
     internalAppend (pointers exampleTape) dst (positionAfter examplePrefix)
                    (posStmt (positionAfter (examplePrefix ++ exampleRange))) =
     Some (dst', positionAfter (examplePrefix ++ exampleRange))).
Proof.
  split; [exact exampleRange_wellRecorded|].
  exact (handlers_stop_at_the_range_end [] examplePrefix exampleRange exampleSuffix
           exampleRange_wellRecorded).
Defined.

Lemma append_adjacent_ranges_witness :
  (Forall wellRecorded examplePrefix ∧ Forall wellRecorded exampleRange) ∧
  append newTape exampleTape (positionAfter []) (positionAfter examplePrefix) ≫=
    (λ dst', append dst' exampleTape (positionAfter examplePrefix)
                    (positionAfter (examplePrefix ++ exampleRange))) =
  append newTape exampleTape (positionAfter [])
         (positionAfter (examplePrefix ++ exampleRange)).
Proof.
  split; [split; [exact examplePrefix_wellRecorded|exact exampleRange_wellRecorded]|].
  exact (append_adjacent_ranges newTape [] [] examplePrefix exampleRange exampleSuffix
           examplePrefix_wellRecorded exampleRange_wellRecorded).
Defined.

Lemma appended_range_replays_alike_witness :
  Forall wellRecorded exampleRange ∧
  ∃ dst',
    append (recording [7%Z] exampleSuffix) exampleTape (positionAfter examplePrefix)
           (positionAfter (examplePrefix ++ exampleRange)) = Some dst' ∧
    evaluateForward dst' (getPosition (recording [7%Z] exampleSuffix)) (getPosition dst')
                    [0; 1; 0; 5; 0; 0]%Z =
    evaluateForward exampleTape (positionAfter examplePrefix)
                    (positionAfter (examplePrefix ++ exampleRange)) [0; 1; 0; 5; 0; 0]%Z ∧
    evaluateReverse dst' (getPosition dst') (getPosition (recording [7%Z] exampleSuffix))
                    [0; 1; 0; 5; 0; 0]%Z =
    evaluateReverse exampleTape (positionAfter (examplePrefix ++ exampleRange))
                    (positionAfter examplePrefix) [0; 1; 0; 5; 0; 0]%Z.
Proof.
  split; [exact exampleRange_wellRecorded|].
  exact (appended_range_replays_alike [7%Z] exampleSuffix [] examplePrefix exampleRange
           exampleSuffix [0; 1; 0; 5; 0; 0]%Z exampleRange_wellRecorded).
Defined.

Lemma eraseWith_used_helper_witness :
  (Forall wellRecorded exampleSuffix ∧ Forall wellRecorded exampleRange) ∧
  ∃ t' helper',
    eraseWith exampleTape (positionAfter examplePrefix)
              (positionAfter (examplePrefix ++ exampleRange))
              (recording [7%Z] exampleRange) = Some (t', helper') ∧
    pointers t' = pointers (recording (Gradient:=Z) []
                              (examplePrefix ++ exampleRange ++ exampleSuffix)) ∧
    getPosition t' = getPosition (recording (Gradient:=Z) []
                                    (examplePrefix ++ exampleRange ++ exampleSuffix)).
Proof.
  split; [split; [exact exampleSuffix_wellRecorded|exact exampleRange_wellRecorded]|].
  exact (eraseWith_used_helper [] examplePrefix exampleRange exampleSuffix [7%Z] exampleRange
           exampleSuffix_wellRecorded exampleRange_wellRecorded).
Defined.

Lemma clearAdjoints_adjacent_ranges_witness :
  (posStmt (positionAfter examplePrefix) ≤ posStmt (positionAfter (examplePrefix ++ exampleRange)) ∧
   posStmt (positionAfter (examplePrefix ++ exampleRange)) ≤ posStmt (getPosition exampleTape)) ∧
  clearAdjoints (clearAdjoints (withAdjoints exampleTape [1; 2; 3; 4; 5; 6]%Z)
                               (getPosition exampleTape)
                               (positionAfter (examplePrefix ++ exampleRange)))
                (positionAfter (examplePrefix ++ exampleRange)) (positionAfter examplePrefix) =
  clearAdjoints (withAdjoints exampleTape [1; 2; 3; 4; 5; 6]%Z)
                (getPosition exampleTape) (positionAfter examplePrefix).
Proof.
  assert (posStmt (positionAfter examplePrefix) ≤
          posStmt (positionAfter (examplePrefix ++ exampleRange))) as H12 by (simpl; lia).
  assert (posStmt (positionAfter (examplePrefix ++ exampleRange)) ≤
          posStmt (getPosition exampleTape)) as H23 by (simpl; lia).
  split; [split; [exact H12|exact H23]|].
  exact (clearAdjoints_adjacent_ranges (withAdjoints exampleTape [1; 2; 3; 4; 5; 6]%Z)
           _ _ _ H12 H23).
Defined.

Lemma setGradient_zero_identifier_is_read_out_of_bounds_witness :
  (0 < length (adjoints (withAdjoints exampleTape [6; 5]%Z)) ∧
   getIdentifier (mkLhsExpression 1%Z 0) = 0 ∧
   length (adjoints (withAdjoints exampleTape [6; 5]%Z)) ≤ getIdentifier (mkLhsExpression 2%Z 9)) ∧
  ∃ t', LhsExpression_setGradient (mkLhsExpression 1%Z 0) 8%Z
                                  (withAdjoints exampleTape [6; 5]%Z) = Some t' ∧
        LhsExpression_getGradient (mkLhsExpression 2%Z 9) t' = Some 8%Z.
Proof.
  assert (0 < length (adjoints (withAdjoints exampleTape [6; 5]%Z))) as Hpos by (simpl; lia).
  assert (length (adjoints (withAdjoints exampleTape [6; 5]%Z)) ≤
          getIdentifier (mkLhsExpression 2%Z 9)) as Hout by (simpl; lia).
  split; [split; [exact Hpos|split; [reflexivity|exact Hout]]|].
  exact (setGradient_zero_identifier_is_read_out_of_bounds
           (mkLhsExpression 1%Z 0) (mkLhsExpression 2%Z 9) 8%Z
           (withAdjoints exampleTape [6; 5]%Z) Hpos eq_refl Hout).
Defined.

Example setGradient_getGradient_example :
  LhsExpression_setGradient (mkLhsExpression 1%Z 3) 8%Z (withAdjoints exampleTape [6; 5]%Z) ≫=
    LhsExpression_getGradient (mkLhsExpression 1%Z 3) = Some 8%Z.
Proof. reflexivity. Qed.

End MoreExamples.

Section TransposeExample.
#[local] Existing Instance TapeTypes_Z.
#[local] Existing Instance Config_255.
#[local] Existing Instance LowLevelFunctionTable_scaling.

Lemma dot_scale (k : Z) (y : list Z) : ∀ x,
  dot y (Z.mul k <$> x) = dot (Z.mul k <$> y) x.
Proof.
  induction y as [|b y IH]; intros x; [by destruct x|].
  destruct x as [|a x]; [done|]. rewrite !fmap_cons. cbn [dot]. rewrite (IH x). lia.
Defined.

Lemma scaling_wellRecorded : Forall wellRecorded exampleRange.
Proof. repeat constructor; simpl; lia. Defined.

Lemma scaling_callbacksKeepSize : callbacksKeepSize (Gradient:=Z).
Proof. intros token fixedBytes dynamicBytes v. split; apply length_fmap. Defined.

Lemma scaling_transposedCallbacks n : Forall (transposedCallbacks n) exampleRange.
Proof.
  repeat constructor. intros x y _ _. apply dot_scale.
Defined.

Lemma reverse_replay_is_transpose_witness :
  (Forall wellRecorded exampleRange ∧ callbacksKeepSize (Gradient:=Z) ∧
   Forall (transposedCallbacks (length [0; 1; 2; 5; 0; 0]%Z)) exampleRange ∧
   length [0; 1; 2; 5; 0; 0]%Z = length [0; 3; 0; 1; 1; 0]%Z ∧
   evaluateForward (recording [] (examplePrefix ++ exampleRange ++ exampleSuffix))
                   (positionAfter examplePrefix)
                   (positionAfter (examplePrefix ++ exampleRange))
                   [0; 1; 2; 5; 0; 0]%Z = Some [0; 9; 18; 45; 54; 0]%Z ∧
   evaluateReverse (recording [] (examplePrefix ++ exampleRange ++ exampleSuffix))
                   (positionAfter (examplePrefix ++ exampleRange))
                   (positionAfter examplePrefix)
                   [0; 3; 0; 1; 1; 0]%Z = Some [0; 36; 0; 18; 0; 0]%Z) ∧
  dot [0; 3; 0; 1; 1; 0]%Z [0; 9; 18; 45; 54; 0]%Z =
  dot [0; 36; 0; 18; 0; 0]%Z [0; 1; 2; 5; 0; 0]%Z.
Proof.
  assert (evaluateForward (recording [] (examplePrefix ++ exampleRange ++ exampleSuffix))
            (positionAfter examplePrefix) (positionAfter (examplePrefix ++ exampleRange))
            [0; 1; 2; 5; 0; 0]%Z = Some [0; 9; 18; 45; 54; 0]%Z) as Hfwd by reflexivity.
  assert (evaluateReverse (recording [] (examplePrefix ++ exampleRange ++ exampleSuffix))
            (positionAfter (examplePrefix ++ exampleRange)) (positionAfter examplePrefix)
            [0; 3; 0; 1; 1; 0]%Z = Some [0; 36; 0; 18; 0; 0]%Z) as Hrev by reflexivity.
  split.
  - split; [exact scaling_wellRecorded|]. split; [exact scaling_callbacksKeepSize|].
    split; [exact (scaling_transposedCallbacks _)|]. split; [reflexivity|].
    split; [exact Hfwd|exact Hrev].
  - exact (reverse_replay_is_transpose [] examplePrefix exampleRange exampleSuffix
             [0; 1; 2; 5; 0; 0]%Z [0; 3; 0; 1; 1; 0]%Z _ _
             scaling_wellRecorded scaling_callbacksKeepSize (scaling_transposedCallbacks _)
             eq_refl Hfwd Hrev).
Defined.

End TransposeExample.


Section ConstructExamples.
#[local] Existing Instance ExpressionOperations_Z.

Example construct_example :
  construct (typeOf exampleExpression) 1 0 examplePrimalVector [9; 4; 2; 9] [3%Z] =
  Some exampleExpression.
Proof. reflexivity. Qed.

Example construct_out_of_bounds :
  construct (typeOf exampleExpression) 3 0 examplePrimalVector [9; 4; 2; 9] [3%Z] = None.
Proof. reflexivity. Qed.


Lemma construct_roundtrip_witness :
  (resultsComputed exampleExpression ∧
   Forall (λ leaf, examplePrimalVector !! leaf.2 = Some leaf.1)
          (activeLeaves exampleExpression) ∧
   constantLeaves exampleExpression = fromDataStore <$> [3%Z]) ∧
  construct (typeOf exampleExpression) (length [9]) (length [5%Z; 6%Z]) examplePrimalVector
            ([9] ++ (activeLeaves exampleExpression).*2 ++ [9; 9])
            ([5%Z; 6%Z] ++ [3%Z] ++ []) = Some exampleExpression.
Proof.
  assert (resultsComputed exampleExpression) as Hres by (simpl; repeat split; reflexivity).
  assert (Forall (λ leaf, examplePrimalVector !! leaf.2 = Some leaf.1)
                 (activeLeaves exampleExpression)) as Hleaves
    by (repeat constructor).
  assert (constantLeaves exampleExpression = fromDataStore <$> [3%Z]) as Hconst
    by reflexivity.
  split; [split; [exact Hres|split; [exact Hleaves|exact Hconst]]|].
  exact (construct_roundtrip exampleExpression [9] [9; 9] [5%Z; 6%Z] [3%Z] []
           examplePrimalVector Hres Hleaves Hconst).
Defined.

End ConstructExamples.


Section AppendExamples.
#[local] Existing Instance TapeTypes_Z.
#[local] Existing Instance Config_255.
#[local] Existing Instance LowLevelFunctionTable_example.

Lemma append_only_adds_witness :
  append (recording [7%Z] exampleSuffix) exampleTape (positionAfter examplePrefix)
         (positionAfter (examplePrefix ++ exampleRange)) =
    Some (recording [7%Z] (exampleSuffix ++ exampleRange)) ∧
  adjoints (recording [7%Z] (exampleSuffix ++ exampleRange)) =
    adjoints (recording [7%Z] exampleSuffix) ∧
  statementData (recording (Gradient:=Z) [7%Z] exampleSuffix) `prefix_of`
    statementData (recording (Gradient:=Z) [7%Z] (exampleSuffix ++ exampleRange)) ∧
  jacobianData (recording (Gradient:=Z) [7%Z] exampleSuffix) `prefix_of`
    jacobianData (recording (Gradient:=Z) [7%Z] (exampleSuffix ++ exampleRange)) ∧
  lowLevelFunctionData (recording (Gradient:=Z) [7%Z] exampleSuffix) `prefix_of`
    lowLevelFunctionData (recording (Gradient:=Z) [7%Z] (exampleSuffix ++ exampleRange)) ∧
  fixedSizeData (recording (Gradient:=Z) [7%Z] exampleSuffix) `prefix_of`
    fixedSizeData (recording (Gradient:=Z) [7%Z] (exampleSuffix ++ exampleRange)) ∧
  dynamicSizeData (recording (Gradient:=Z) [7%Z] exampleSuffix) `prefix_of`
    dynamicSizeData (recording (Gradient:=Z) [7%Z] (exampleSuffix ++ exampleRange)) ∧
  length (statementData (recording (Gradient:=Z) [7%Z] (exampleSuffix ++ exampleRange))) =
    length (statementData (recording (Gradient:=Z) [7%Z] exampleSuffix)) +
    (posStmt (positionAfter (examplePrefix ++ exampleRange)) -
     posStmt (positionAfter examplePrefix)).
Proof.
  assert (append (recording [7%Z] exampleSuffix) exampleTape (positionAfter examplePrefix)
            (positionAfter (examplePrefix ++ exampleRange)) =
          Some (recording [7%Z] (exampleSuffix ++ exampleRange))) as Hrun by reflexivity.
  split; [exact Hrun|].
  exact (append_only_adds _ _ _ _ _ Hrun).
Defined.

Lemma append_keeps_counts_witness :
  (countsAgree (recording [7%Z] exampleSuffix) ∧
   append (recording [7%Z] exampleSuffix) exampleTape (positionAfter examplePrefix)
          (positionAfter (examplePrefix ++ exampleRange)) =
   Some (recording [7%Z] (exampleSuffix ++ exampleRange))) ∧
  countsAgree (recording [7%Z] (exampleSuffix ++ exampleRange)).
Proof.
  assert (countsAgree (recording [7%Z] exampleSuffix)) as Hcounts by (split; reflexivity).
  assert (append (recording [7%Z] exampleSuffix) exampleTape (positionAfter examplePrefix)
            (positionAfter (examplePrefix ++ exampleRange)) =
          Some (recording [7%Z] (exampleSuffix ++ exampleRange))) as Hrun by reflexivity.
  split; [split; [exact Hcounts|exact Hrun]|].
  exact (append_keeps_counts _ _ _ _ _ Hcounts Hrun).
Defined.

End AppendExamples.
